(** * Space Minesweeper: the per-frame simulation of [src/index.ts]

    A shallow embedding of the [Game] class.  The game state is an explicit
    record threaded through the handlers ([update], [onMouseMove],
    [onMouseDown], the [spawnMine] timer callback).

    Numbers.  The source computes with JavaScript numbers; the embedding
    uses exact rationals ([Q]), so every statement about coordinates below
    is a statement of exact arithmetic.

    Library.  The paper.js operations whose result is not rational
    ([Point.normalize], [Point.angle]) or depends on the geometry of the
    drawn shapes ([Item.hitTest]) are an interface, the class [Paper];
    theorems hold for every implementation of it.  [refPaper] is a
    reference implementation used to run the code on concrete states. *)

From Stdlib Require Import QArith Qabs Qround Lqa ZArith Lia.
From stdpp Require Import base list.

Local Open Scope Q_scope.

(** ** Points ([paper.Point]) *)

Record Point := mkPoint { x : Q; y : Q }.

Module Point.
Definition add (p q : Point) : Point := mkPoint (x p + x q) (y p + y q).
Definition subtract (p q : Point) : Point := mkPoint (x p - x q) (y p - y q).
Definition multiply (p : Point) (k : Q) : Point := mkPoint (x p * k) (y p * k).
Definition zero : Point := mkPoint 0 0.
(** Coordinate-wise equality of rationals. *)
Definition eq (p q : Point) : Prop := x p == x q /\ y p == y q.
End Point.

(** ** JavaScript number operations *)

(** [a < b] as a boolean. *)
Definition ltb (a b : Q) : bool := negb (Qle_bool b a).
(** [a > b]. *)
Definition gtb (a b : Q) : bool := ltb b a.
(** [a <= b]. *)
Definition leb (a b : Q) : bool := Qle_bool a b.
(** [a >= b]. *)
Definition geb (a b : Q) : bool := Qle_bool b a.

(** [Math.trunc]: rounding toward zero. *)
Definition trunc (a : Q) : Z := if ltb a 0 then Qceiling a else Qfloor a.

(** The [%] operator: the remainder has the sign of the dividend. *)
Definition jsmod (a b : Q) : Q := a - b * inject_Z (trunc (a / b)).

(** ** Items ([paper.Item]) *)

(** What an item draws: the ship group or a placed symbol. *)
Inductive Symbol := shipGraphic | starSymbol | mineSymbol | laserSymbol | explosionSymbol.

(** [boundsWidth] is [item.bounds.width]; the program reads it for stars and
    explosions only, both circles, whose bounding box does not depend on
    the rotation. *)
Record Item := mkItem {
  definition : Symbol;
  position : Point;
  rotation : Q;
  boundsWidth : Q
}.

Definition setPosition (it : Item) (p : Point) : Item :=
  mkItem (definition it) p (rotation it) (boundsWidth it).
(** [item.position.x = v] and [item.position.y = v]. *)
Definition setX (it : Item) (v : Q) : Item := setPosition it (mkPoint v (y (position it))).
Definition setY (it : Item) (v : Q) : Item := setPosition it (mkPoint (x (position it)) v).
(** [item.rotation = a]. *)
Definition setRotation (it : Item) (a : Q) : Item :=
  mkItem (definition it) (position it) a (boundsWidth it).
(** [item.translate(delta)]. *)
Definition translate (it : Item) (delta : Point) : Item :=
  setPosition it (Point.add (position it) delta).
(** [item.rotate(angle)], about the item's own position. *)
Definition rotate (it : Item) (a : Q) : Item := setRotation it (rotation it + a).
(** [item.scale(k)], about the item's own position. *)
Definition scale (it : Item) (k : Q) : Item :=
  mkItem (definition it) (position it) (rotation it) (boundsWidth it * k).

(** ** The paper.js operations left abstract *)

Class Paper := {
  (** [point.normalize(length)] *)
  normalize : Point -> Q -> Point;
  (** [point.angle], in degrees, in [-180, 180] *)
  angle : Point -> Q;
  (** [item.hitTest(point, {fill:true, tolerance:30})] is not null *)
  hitTest : Item -> Point -> bool;
  (** bounding width of the mine graphic after [item.scale(4)] *)
  mineWidth : Q
}.

(** ** The game state: the fields of [Game] that change *)

Record Game := mkGame {
  mouseVector : Point;
  laserDir : list Point;
  ship : Item;
  stars : list Item;
  mines : list Item;
  lasers : list Item;
  explosions : list Item
}.

(** Fields set once by the constructor. *)
Definition width : Q := 1200.
Definition height : Q := 800.
Definition mouseSensetivity : Q := 4.
(** [paper.view.center], as [resize] sets it. *)
Definition viewCenter : Point := mkPoint (width / 2) (height / 2).

Definition setMouseVector (g : Game) (v : Point) : Game :=
  mkGame v (laserDir g) (ship g) (stars g) (mines g) (lasers g) (explosions g).
Definition setLaserDir (g : Game) (l : list Point) : Game :=
  mkGame (mouseVector g) l (ship g) (stars g) (mines g) (lasers g) (explosions g).
Definition setShip (g : Game) (s : Item) : Game :=
  mkGame (mouseVector g) (laserDir g) s (stars g) (mines g) (lasers g) (explosions g).
Definition setStars (g : Game) (l : list Item) : Game :=
  mkGame (mouseVector g) (laserDir g) (ship g) l (mines g) (lasers g) (explosions g).
Definition setMines (g : Game) (l : list Item) : Game :=
  mkGame (mouseVector g) (laserDir g) (ship g) (stars g) l (lasers g) (explosions g).
Definition setLasers (g : Game) (l : list Item) : Game :=
  mkGame (mouseVector g) (laserDir g) (ship g) (stars g) (mines g) l (explosions g).
Definition setExplosions (g : Game) (l : list Item) : Game :=
  mkGame (mouseVector g) (laserDir g) (ship g) (stars g) (mines g) (lasers g) l.

(** ** [for (var i = 0; i < group.children.length; i++) body]

    The bound is read again before every iteration, so a [body] that
    removes children shortens the scan while [i] still advances.  [fuel]
    bounds the number of iterations; [forLoop_fuel] shows that the length
    of the group at loop entry is enough whenever the body never adds
    children. *)
Fixpoint forLoop {S : Type} (len : S -> nat) (body : nat -> S -> S)
    (fuel i : nat) (s : S) : S :=
  match fuel with
  | O => s
  | Datatypes.S fuel' =>
      if (i <? len s)%nat then forLoop len body fuel' (i + 1)%nat (body i s) else s
  end.

(** [symbol.place(p)]: a new item of that symbol at [p]. *)
Definition symbolWidth `{Paper} (s : Symbol) : Q :=
  match s with
  | starSymbol => 4
  | explosionSymbol => 2
  | laserSymbol => 25
  | mineSymbol => mineWidth
  | shipGraphic => 0
  end.
Definition place `{Paper} (s : Symbol) (p : Point) : Item := mkItem s p 0 (symbolWidth s).

(** [array.splice(i, 1)] and [item.remove()] for the child at index [i]:
    both are [delete i], which leaves a list alone when [i] is out of range. *)
Definition splice {A : Type} (l : list A) (i : nat) : list A := delete i l.

Section Handlers.
Context `{Paper}.

(** ** [removeMine(mine)]

    The argument is the child of the mine group at index [j] (every call
    site passes [this.mines.children[j]] for a [j] below the length):
    place an explosion at its position, append it to the explosion group,
    remove the mine from the mine group. *)
Definition removeMine (j : nat) (g : Game) : Game :=
  match mines g !! j with
  | None => g
  | Some mine =>
      let explosion := place explosionSymbol (position mine) in
      let g1 := setExplosions g (explosions g ++ [explosion]) in
      setMines g1 (splice (mines g1) j)
  end.

(** ** [pointOOB()]

    [a] is [this.mouseVector.angle]; [r0], [r1], [r2] are the three values
    [Math.random()] returns, in the order the calls are made. *)
Definition pointOOBAt (a r0 r1 r2 : Q) : Point :=
  if ltb r0 0.75 then
    if (ltb a 45 && geb a 0) || (ltb a 0 && geb a (-45)) then
      mkPoint (50 * r1 + width) (height * r2)
    else if leb a (-45) && gtb a (-135) then
      mkPoint (width * r1) (-50 * r2)
    else if (leb a 180 && geb a 135) || (ltb a (-135) && geb a (-180)) then
      mkPoint (-50 * r1) (height * r2)
    else
      mkPoint (width * r1) (50 * r2 + height)
  else
    if (ltb a 45 && geb a 0) || (ltb a 0 && geb a (-45)) then
      mkPoint (-50 * r1) (height * r2)
    else if leb a (-45) && gtb a (-135) then
      mkPoint (width * r1) (50 * r2 + height)
    else if (leb a 180 && geb a 135) || (ltb a (-135) && geb a (-180)) then
      mkPoint (50 * r1 + width) (height * r2)
    else
      mkPoint (width * r1) (-50 * r2).

Definition pointOOB (g : Game) (r0 r1 r2 : Q) : Point :=
  pointOOBAt (angle (mouseVector g)) r0 r1 r2.

(** ** The timer callback [spawnMine], fired every 750 ms *)
Definition spawnMine (r0 r1 r2 : Q) (g : Game) : Game :=
  let placed := place mineSymbol (pointOOB g r0 r1 r2) in
  setMines g (mines g ++ [placed]).

(** ** [onMouseMove(event)], with [p] the event's point *)
Definition onMouseMove (p : Point) (g : Game) : Game :=
  let g1 := setMouseVector g (Point.subtract p viewCenter) in
  setShip g1 (setRotation (ship g1) (angle (mouseVector g1) + 90)).

(** ** [onMouseDown(event)] *)
Definition onMouseDown (g : Game) : Game :=
  let newLaser := setRotation (place laserSymbol (position (ship g))) (angle (mouseVector g)) in
  let g1 := setLaserDir g (laserDir g ++ [normalize (mouseVector g) 7]) in
  setLasers g1 (lasers g1 ++ [newLaser]).

(** ** [update(event)]: the star scan *)

(** Lines 140-148: wrap the star in x, then in y. *)
Definition wrapStar (curStar : Item) : Item :=
  let s1 := setX curStar (jsmod (x (position curStar)) width) in
  let s2 := if ltb (x (position s1)) 0 then setX s1 width else s1 in
  let s3 := setY s2 (jsmod (y (position s2)) height) in
  if ltb (y (position s3)) 0 then setY s3 height else s3.

(** Lines 138-148: parallax move, then wrap. *)
Definition moveStar (g : Game) (curStar : Item) : Item :=
  let moved := translate curStar
    (Point.multiply (mouseVector g) (-0.001 * mouseSensetivity * boundsWidth curStar)) in
  wrapStar moved.

Definition starBody (i : nat) (g : Game) : Game :=
  match stars g !! i with
  | None => g
  | Some curStar => setStars g (<[i := moveStar g curStar]> (stars g))
  end.

Definition starPass (g : Game) : Game :=
  forLoop (fun s => length (stars s)) starBody (length (stars g)) 0 g.

(** ** The mine scan *)
(** Lines 157-164: home toward the ship, drift with the mouse, rotate. *)
Definition moveMine (g : Game) (curMine : Item) : Item :=
  let towardShip := normalize (Point.subtract viewCenter (position curMine)) 3 in
  let m1 := translate curMine towardShip in
  let m2 := translate m1 (Point.multiply (mouseVector g) (-0.006 * mouseSensetivity)) in
  rotate m2 1.

Definition mineBody (i : nat) (g : Game) : Game :=
  match mines g !! i with
  | None => g
  | Some curMine =>
      let moved := moveMine g curMine in
      let g1 := setMines g (<[i := moved]> (mines g)) in
      if hitTest moved (position (ship g1)) then removeMine i g1 else g1
  end.

Definition minePass (g : Game) : Game :=
  forLoop (fun s => length (mines s)) mineBody (length (mines g)) 0 g.

(** ** The laser scan *)

(** The test of line 180. *)
Definition outOfBounds (p : Point) : bool :=
  ltb (x p) 0 || gtb (x p) width || ltb (y p) 0 || gtb (y p) height.

(** [this.laserDir[i]]; reading past the end gives [undefined], and
    [translate(undefined)] moves by the zero point. *)
Definition laserDirAt (g : Game) (i : nat) : Point :=
  default Point.zero (laserDir g !! i).

(** State of one iteration of the laser scan: the game, and whether
    [curLaser] is still a child of the laser group ([item.remove()] on an
    item that has no parent does nothing). *)
Record Scan := mkScan { game : Game; attached : bool }.

(** [curLaser.remove(); this.laserDir.splice(i, 1);] *)
Definition removeLaser (i : nat) (s : Scan) : Scan :=
  let g := game s in
  let g1 := if attached s then setLasers g (splice (lasers g) i) else g in
  mkScan (setLaserDir g1 (splice (laserDir g1) i)) false.

(** Body of the inner scan over the mines, lines 189-197. *)
Definition hitBody (i : nat) (curLaser : Item) (j : nat) (s : Scan) : Scan :=
  match mines (game s) !! j with
  | None => s
  | Some mine =>
      if hitTest curLaser (position mine)
      then removeLaser i (mkScan (removeMine j (game s)) (attached s))
      else s
  end.

Definition hitScan (i : nat) (curLaser : Item) (s : Scan) : Scan :=
  forLoop (fun s => length (mines (game s))) (hitBody i curLaser)
          (length (mines (game s))) 0 s.

Definition laserBody (i : nat) (g : Game) : Game :=
  match lasers g !! i with
  | None => g
  | Some l =>
      let curLaser := translate l (laserDirAt g i) in
      let s1 := mkScan (setLasers g (<[i := curLaser]> (lasers g))) true in
      let s2 := if outOfBounds (position curLaser) then removeLaser i s1 else s1 in
      game (hitScan i curLaser s2)
  end.

Definition laserPass (g : Game) : Game :=
  forLoop (fun s => length (lasers s)) laserBody (length (lasers g)) 0 g.

(** ** The explosion scan *)
Definition explosionBody (i : nat) (g : Game) : Game :=
  match explosions g !! i with
  | None => g
  | Some e =>
      let curExplosion := scale e 1.3 in
      let g1 := setExplosions g (<[i := curExplosion]> (explosions g)) in
      if gtb (boundsWidth curExplosion) 100
      then setExplosions g1 (splice (explosions g1) i)
      else g1
  end.

Definition explosionPass (g : Game) : Game :=
  forLoop (fun s => length (explosions s)) explosionBody (length (explosions g)) 0 g.

(** ** The population cap, lines 216-217 *)
Definition capMines (g : Game) : Game :=
  if (30 <? length (mines g))%nat then removeMine 0 g else g.

(** The four scans in source order: the state the cap test reads. *)
Definition scans (g : Game) : Game :=
  explosionPass (laserPass (minePass (starPass g))).

Definition update (g : Game) : Game := capMines (scans g).

(** ** Event traces *)
Inductive Event :=
| Frame
| MouseMove (p : Point)
| MouseDown
| Spawn (r0 r1 r2 : Q).

Definition step (e : Event) (g : Game) : Game :=
  match e with
  | Frame => update g
  | MouseMove p => onMouseMove p g
  | MouseDown => onMouseDown g
  | Spawn r0 r1 r2 => spawnMine r0 r1 r2 g
  end.

Fixpoint run (es : list Event) (g : Game) : Game :=
  match es with
  | [] => g
  | e :: es' => run es' (step e g)
  end.

End Handlers.

(** ** A reference implementation of the library interface

    Used to run the handlers on concrete states.  The square root is exact
    on rationals that are squares of numbers with at most six decimals and
    rounded down to six decimals otherwise; normalized points are stored
    as reduced fractions; the angle is exact on the multiples of 45
    degrees and interpolated in between; the hit test is a circular
    proximity test with radius 30 around the item's position. *)
Module Ref.
Definition sqrt (q : Q) : Q :=
  Z.sqrt (Qnum q * Zpos (Qden q) * 10 ^ 12) # (Qden q * 10 ^ 6).

Definition length (p : Point) : Q := sqrt (x p * x p + y p * y p).

Definition normalize (p : Point) (len : Q) : Point :=
  let current := length p in
  let k := if Qeq_bool current 0 then 0 else len / current in
  mkPoint (Qred (x p * k)) (Qred (y p * k)).

(** Arctangent in degrees on [0, 1]. *)
Definition atanDeg (t : Q) : Q := 45 * t + 15.64 * t * (1 - t).

Definition angle (p : Point) : Q :=
  let ax := Qabs (x p) in
  let ay := Qabs (y p) in
  if Qeq_bool ax 0 && Qeq_bool ay 0 then 0 else
  let acute := if leb ay ax then atanDeg (ay / ax) else 90 - atanDeg (ax / ay) in
  let a := if ltb (x p) 0 then 180 - acute else acute in
  if ltb (y p) 0 then - a else a.

Definition hitTest (it : Item) (p : Point) : bool :=
  let d := Point.subtract p (position it) in
  leb (x d * x d + y d * y d) (30 * 30).
End Ref.

#[export] Instance refPaper : Paper :=
  {| normalize := Ref.normalize; angle := Ref.angle; hitTest := Ref.hitTest; mineWidth := 64 |}.

(** ** The wrap rule for one coordinate

    What lines 141-143 (and 146-148) compute from the coordinate [v] and
    the bound: the remainder, replaced by the bound when it is negative. *)
Definition wrapCoord (v bound : Q) : Q :=
  let m := jsmod v bound in
  if ltb m 0 then bound else m.

(** ** Edges of the play area *)

Inductive Edge := RightEdge | TopEdge | LeftEdge | BottomEdge.

Definition opposite (e : Edge) : Edge :=
  match e with
  | RightEdge => LeftEdge
  | TopEdge => BottomEdge
  | LeftEdge => RightEdge
  | BottomEdge => TopEdge
  end.

(** [p] is in the band past edge [e]: at most 50 units beyond the edge,
    and within the span of the play area along it. *)
Definition beyond (e : Edge) (p : Point) : Prop :=
  match e with
  | RightEdge => (width <= x p < width + 50) /\ (0 <= y p < height)
  | TopEdge => (0 <= x p < width) /\ (-50 < y p <= 0)
  | LeftEdge => (-50 < x p <= 0) /\ (0 <= y p < height)
  | BottomEdge => (0 <= x p < width) /\ (height <= y p < height + 50)
  end.

(** The point is past edge [ahead] when the first draw [r0] takes the 75%
    branch, and past the opposite edge otherwise. *)
Definition bucketed (ahead : Edge) (r0 : Q) (p : Point) : Prop :=
  (r0 < 0.75 -> beyond ahead p) /\ (0.75 <= r0 -> beyond (opposite ahead) p).

(** The edge ahead for aim angle [a], as the specification words the
    buckets: [0,45) or (-45,0] right; (-135,-45] top; [135,180] or
    [-180,-135) left; bottom otherwise. *)
Definition specEdge (a : Q) : Edge :=
  if (geb a 0 && ltb a 45) || (gtb a (-45) && leb a 0) then RightEdge
  else if gtb a (-135) && leb a (-45) then TopEdge
  else if (geb a 135 && leb a 180) || (geb a (-180) && ltb a (-135)) then LeftEdge
  else BottomEdge.



(** ** The laser group during the inner scan *)

(** During the inner scan the laser group is either untouched, with the
    direction list untouched too, or it has lost the child at index [i]. *)
Definition scanState (i : nat) (ls : list Item) (ds : list Point) (s : Scan) : Prop :=
  (attached s = true /\ lasers (game s) = ls /\ laserDir (game s) = ds)
  \/ (attached s = false /\ lasers (game s) = delete i ls).

(** ** Traces without laser removal *)

(** No frame of the trace [es], run from [g], removes a laser: the laser
    group is as long after each [update] as before it ([update] never
    adds a laser). *)
Fixpoint noRemoval `{Paper} (es : list Event) (g : Game) : Prop :=
  match es with
  | [] => True
  | e :: es' =>
      match e with
      | Frame => length (lasers (update g)) = length (lasers g)
      | _ => True
      end /\ noRemoval es' (step e g)
  end.

(** Number of frames in a trace. *)
Fixpoint frames (es : list Event) : nat :=
  match es with
  | [] => O
  | Frame :: es' => Datatypes.S (frames es')
  | _ :: es' => frames es'
  end.

(** ** Concrete states *)
Module Example.
Definition shipAtCenter : Item := mkItem shipGraphic viewCenter 0 96.
Definition laserAt (p : Point) : Item := mkItem laserSymbol p 0 25.
Definition mineAt (p : Point) : Item := mkItem mineSymbol p 0 64.

(** A game with the given mines, lasers and directions, mouse at rest. *)
Definition game (ms ls : list Item) (ds : list Point) : Game :=
  mkGame Point.zero ds shipAtCenter [] ms ls [].

(** One mine far from the ship. *)
Definition oneMine : Game := game [mineAt (mkPoint 100 100)] [] [].

(** Two lasers side by side, about to cross the right edge. *)
Definition twoLeaving : Game :=
  game [] [laserAt (mkPoint 1195 400); laserAt (mkPoint 1195 400)]
       [mkPoint 7 0; mkPoint 7 0].


(** A laser about to cross the right edge where a mine has just been
    spawned, and a second laser elsewhere. *)
Definition leavingIntoMine : Game :=
  game [mineAt (mkPoint 1213 400)]
       [laserAt (mkPoint 1195 400); laserAt (mkPoint 600 100)]
       [mkPoint 7 0; mkPoint 7 0].

(** A laser in the middle of the play area, next to a mine. *)
Definition laserNearMine : Game :=
  game [mineAt (mkPoint 610 100)] [laserAt (mkPoint 600 100)] [mkPoint 7 0].

(** [n] mines far from the ship, nothing else. *)
Definition manyMines (n : nat) : Game :=
  game (replicate n (mineAt (mkPoint 100 100))) [] [].

(** The mouse held to the right of the ship, nothing on screen. *)
Definition aimingRight : Game :=
  mkGame (mkPoint 600 0) [] shipAtCenter [] [] [] [].

(** The game once the ship is loaded; the stars are left out, no other
    group depends on them. *)
Definition started : Game := game [] [] [].

(** Play from [started]: aim to the right, fire, fire again ten frames
    later, and 85 frames after the first shot a mine is spawned, ahead
    of the ship, where the first laser is about to leave. *)
Definition shootIntoSpawn : list Event :=
  [MouseMove (mkPoint 1200 400); MouseDown] ++ replicate 10 Frame
  ++ [MouseDown] ++ replicate 75 Frame ++ [Spawn 0 (1 # 2) (1 # 2)].

(** Stars past the right edge and above the top edge, and the reverse. *)
Definition starRightAbove : Item := mkItem starSymbol (mkPoint (width + 5) (-3)) 0 4.
Definition starLeftBelow : Item := mkItem starSymbol (mkPoint (-3) (height + 5)) 0 4.
End Example.

(** ** Scene creation and resizing *)

(** The constructor's star count. *)
Definition numStars : nat := 150.

(** [pointRandom(maxX, maxY)], with the two draws of [Math.random()]. *)
Definition pointRandom (maxX maxY rX rY : Q) : Point :=
  mkPoint (rX * maxX) (rY * maxY).

(** Body of the loop of lines 87-92 for index [i]: the draws are taken
    from the stream [rnd] in call order, two for the point and one for
    the scale. *)
Definition createStar `{Paper} (rnd : nat -> Q) (i : nat) : Item :=
  let placed :=
    place starSymbol (pointRandom width height (rnd (3 * i)%nat) (rnd (3 * i + 1)%nat)) in
  scale placed (rnd (3 * i + 2)%nat).

(** [for (var i = 0; i < this.numStars; i++)]: [n] iterations are left,
    the next index is [i]. *)
Fixpoint placeStars `{Paper} (rnd : nat -> Q) (n i : nat) (group : list Item) : list Item :=
  match n with
  | O => group
  | Datatypes.S n' => placeStars rnd n' (Datatypes.S i) (group ++ [createStar rnd i])
  end.

Definition createStars `{Paper} (rnd : nat -> Q) : list Item :=
  placeStars rnd numStars 0 [].

(** What [resize()] writes: [paper.view.zoom] and [paper.view.center]. *)
Record View := mkView { zoom : Q; center : Point }.

(** [resize()], with [viewW] and [viewH] the view size. *)
Definition resize (viewW viewH : Q) : View :=
  let aspectRatio := width / height in
  let newAspectRatio := viewW / viewH in
  let z := if gtb newAspectRatio aspectRatio then viewW / width else viewH / height in
  mkView z (mkPoint (width / 2) (height / 2)).

(** ** Predicates on states and traces *)

(** Every direction has a laser at its index. *)
Definition covered (g : Game) : Prop :=
  (length (laserDir g) <= length (lasers g))%nat.

(** The two lists have the same length. *)
Definition aligned (g : Game) : Prop :=
  length (lasers g) = length (laserDir g).

(** No laser of [g], moved by the direction at its index, hits a mine of [g]. *)
Definition hitFree `{Paper} (g : Game) : Prop :=
  forall k l d mine,
    lasers g !! k = Some l -> laserDir g !! k = Some d -> mine ∈ mines g ->
    hitTest (translate l d) (position mine) = false.

(** No moved mine of [g] touches the ship. *)
Definition contactFree `{Paper} (g : Game) : Prop :=
  forall mine, mine ∈ mines g -> hitTest (moveMine g mine) (position (ship g)) = false.

(** No explosion is wider than the threshold of line 210. *)
Definition explosionsBounded (g : Game) : Prop :=
  Forall (fun e => boundsWidth e <= 100) (explosions g).

(** At most one spawn between two frames; [pending] tells whether a
    spawn has happened since the last frame. *)
Fixpoint spaced (pending : bool) (es : list Event) : Prop :=
  match es with
  | [] => True
  | Frame :: es' => spaced false es'
  | Spawn _ _ _ :: es' => pending = false /\ spaced true es'
  | _ :: es' => spaced pending es'
  end.

(** Inside the play area, right and bottom edges excluded. *)
Definition inPlayArea (p : Point) : Prop :=
  (0 <= x p < width) /\ (0 <= y p < height).

(** Inside the play area, edges included. *)
Definition inClosedArea (p : Point) : Prop :=
  (0 <= x p <= width) /\ (0 <= y p <= height).

(** Every laser of [g'] that has a direction at its index is a laser of
    [g] with that same direction at its index in [g], either as it was or,
    below index [i] only, moved by that direction. *)
Definition pairsFrom (g : Game) (i : nat) (g' : Game) : Prop :=
  forall k l' d,
    lasers g' !! k = Some l' -> laserDir g' !! k = Some d ->
    exists k0 l, lasers g !! k0 = Some l /\ laserDir g !! k0 = Some d
      /\ (l' = l \/ ((k < i)%nat /\ l' = translate l d)).

(** ** More concrete states *)
Module Sample.
(** Two lasers, one about to leave, and a mine far from both. *)
Definition leavingFarFromMine : Game :=
  Example.game [Example.mineAt (mkPoint 100 700)]
               [Example.laserAt (mkPoint 1195 400); Example.laserAt (mkPoint 600 100)]
               [mkPoint 7 0; mkPoint 7 0].

(** A star inside the play area. *)
Definition star : Item := mkItem starSymbol (mkPoint 300 200) 0 2.

(** One star, mouse at rest. *)
Definition oneStar : Game := mkGame Point.zero [] Example.shipAtCenter [star] [] [] [].

(** Every draw is one half. *)
Definition halves (n : nat) : Q := 1 # 2.

(** A mine on the ship and a mine far away. *)
Definition mineOnShip : Game :=
  Example.game [Example.mineAt (mkPoint 600 400); Example.mineAt (mkPoint 100 100)] [] [].

(** A mine half way between the bottom right corner and the ship. *)
Definition farMine : Item := Example.mineAt (mkPoint 900 800).

(** A spawn, a frame, and again. *)
Definition spawnFrame : list Event :=
  [Spawn 0 (1 # 2) (1 # 2); Frame; MouseDown; Spawn 0 (1 # 2) (1 # 2); Frame].
End Sample.

(** * Properties *)

(** ** The scan combinator *)

Section ForLoop.
Context {S : Type} (len : S -> nat) (body : nat -> S -> S).

(** A property kept by every iteration is kept by the scan. *)
Lemma forLoop_inv (P : S -> Prop) :
  (forall i s, (i < len s)%nat -> P s -> P (body i s)) ->
  forall fuel i s, P s -> P (forLoop len body fuel i s).
Proof.
  intros Hbody fuel. induction fuel as [|fuel IH]; intros i s Hs; simpl; [exact Hs|].
  destruct (Nat.ltb_spec i (len s)); [|exact Hs].
  apply IH, Hbody; assumption.
Qed.

(** A component no iteration changes is not changed by the scan. *)
Lemma forLoop_frame {B : Type} (f : S -> B) :
  (forall i s, f (body i s) = f s) ->
  forall fuel i s, f (forLoop len body fuel i s) = f s.
Proof.
  intros Hbody fuel i s.
  apply (forLoop_inv (fun s' => f s' = f s)); [|reflexivity].
  intros j s' _ Hs'. rewrite Hbody. exact Hs'.
Qed.

(** A measure no iteration increases is not increased by the scan. *)
Lemma forLoop_le (m : S -> nat) :
  (forall i s, (m (body i s) <= m s)%nat) ->
  forall fuel i s, (m (forLoop len body fuel i s) <= m s)%nat.
Proof.
  intros Hbody fuel i s.
  apply (forLoop_inv (fun s' => (m s' <= m s)%nat)); [|lia].
  intros j s' _ Hs'. specialize (Hbody j s'). lia.
Qed.

(** Termination: when no iteration adds children, the scan started at
    [i] is over after [len s - i] iterations, and more fuel changes
    nothing. *)
Lemma forLoop_fuel :
  (forall i s, (len (body i s) <= len s)%nat) ->
  forall fuel extra i s, (len s - i <= fuel)%nat ->
    forLoop len body (fuel + extra) i s = forLoop len body fuel i s.
Proof.
  intros Hbody fuel. induction fuel as [|fuel IH]; intros extra i s Hfuel.
  - simpl. destruct extra as [|extra]; [reflexivity|]. simpl.
    destruct (Nat.ltb_spec i (len s)); [lia|reflexivity].
  - simpl. destruct (Nat.ltb_spec i (len s)); [|reflexivity].
    apply IH. specialize (Hbody i s). lia.
Qed.

(** At the end of a scan with enough fuel the index has passed the end. *)
Lemma forLoop_done_index :
  (forall i s, (len (body i s) <= len s)%nat) ->
  forall fuel i s, (len s - i <= fuel)%nat ->
    forLoop len body 1 (i + fuel) (forLoop len body fuel i s) = forLoop len body fuel i s.
Proof.
  intros Hbody fuel. induction fuel as [|fuel IH]; intros i s Hfuel.
  - simpl. destruct (Nat.ltb_spec (i + 0) (len s)); [lia|reflexivity].
  - simpl (forLoop len body (Datatypes.S fuel) i s).
    destruct (Nat.ltb_spec i (len s)).
    + replace (i + Datatypes.S fuel)%nat with ((i + 1) + fuel)%nat by lia.
      apply IH. specialize (Hbody i s). lia.
    + simpl. destruct (Nat.ltb_spec (i + Datatypes.S fuel) (len s)); [lia|reflexivity].
Qed.

End ForLoop.

(** ** Boolean comparisons *)

Lemma ltb_lt (a b : Q) : ltb a b = true <-> a < b.
Proof.
  unfold ltb. rewrite negb_true_iff. split.
  - intros Hb. apply Qnot_le_lt. intros Hle. apply Qle_bool_iff in Hle. congruence.
  - intros Hlt. destruct (Qle_bool b a) eqn:Hb; [|reflexivity].
    apply Qle_bool_iff in Hb. apply Qle_not_lt in Hb. contradiction.
Qed.

Lemma ltb_ge (a b : Q) : ltb a b = false <-> b <= a.
Proof.
  unfold ltb. rewrite negb_false_iff. apply Qle_bool_iff.
Qed.

Lemma leb_le (a b : Q) : leb a b = true <-> a <= b.
Proof. apply Qle_bool_iff. Qed.

Lemma leb_gt (a b : Q) : leb a b = false <-> b < a.
Proof.
  unfold leb. split.
  - intros Hb. apply Qnot_le_lt. intros Hle. apply Qle_bool_iff in Hle. congruence.
  - intros Hlt. destruct (Qle_bool a b) eqn:Hb; [|reflexivity].
    apply Qle_bool_iff in Hb. apply Qle_not_lt in Hb. contradiction.
Qed.

Lemma ltb_spec (a b : Q) : BoolSpec (a < b) (b <= a) (ltb a b).
Proof.
  destruct (ltb a b) eqn:E; constructor; [apply ltb_lt|apply ltb_ge]; exact E.
Qed.

Lemma leb_spec (a b : Q) : BoolSpec (a <= b) (b < a) (leb a b).
Proof.
  destruct (leb a b) eqn:E; constructor; [apply leb_le|apply leb_gt]; exact E.
Qed.

Lemma gtb_spec (a b : Q) : BoolSpec (b < a) (a <= b) (gtb a b).
Proof. unfold gtb. apply ltb_spec. Qed.

Lemma geb_spec (a b : Q) : BoolSpec (b <= a) (a < b) (geb a b).
Proof. unfold geb. apply leb_spec. Qed.

Section Properties.
Context `{Paper}.

(** ** What [removeMine] does *)

Lemma removeMine_some (j : nat) (g : Game) (mine : Item) :
  mines g !! j = Some mine ->
  removeMine j g =
    setMines (setExplosions g (explosions g ++ [place explosionSymbol (position mine)]))
             (delete j (mines g)).
Proof. intros Hj. unfold removeMine. rewrite Hj. reflexivity. Qed.

Lemma length_delete_lookup {A : Type} (l : list A) (i : nat) (a : A) :
  l !! i = Some a -> (length (delete i l) + 1 = length l)%nat.
Proof.
  intros Hi. rewrite length_delete by (rewrite Hi; eauto).
  apply lookup_lt_Some in Hi. lia.
Qed.

Lemma delete_ge {A : Type} (l : list A) (i : nat) :
  (length l <= i)%nat -> delete i l = l.
Proof.
  revert i. induction l as [|a l IH]; intros i Hi; [destruct i; reflexivity|].
  destruct i as [|i]; simpl in Hi; [lia|].
  simpl. f_equal. apply IH. lia.
Qed.

Lemma length_delete_le {A : Type} (l : list A) (i : nat) :
  (length (delete i l) <= length l)%nat.
Proof.
  destruct (l !! i) eqn:Hi.
  - apply length_delete_lookup in Hi. lia.
  - apply lookup_ge_None in Hi. rewrite delete_ge by exact Hi. lia.
Qed.

Lemma removeMine_mines_le (j : nat) (g : Game) :
  (length (mines (removeMine j g)) <= length (mines g))%nat.
Proof.
  unfold removeMine. destruct (mines g !! j); simpl; [apply length_delete_le|lia].
Qed.

(** ** Components each handler leaves alone *)

Ltac frame_body :=
  intros;
  unfold starBody, mineBody, explosionBody, hitBody, capMines, removeLaser, removeMine;
  repeat case_match; reflexivity.

Lemma removeMine_frame (j : nat) (g : Game) :
  ship (removeMine j g) = ship g /\ mouseVector (removeMine j g) = mouseVector g
  /\ stars (removeMine j g) = stars g /\ lasers (removeMine j g) = lasers g
  /\ laserDir (removeMine j g) = laserDir g.
Proof. repeat split; frame_body. Qed.

Lemma hitScan_frame {B : Type} (f : Game -> B) (i : nat) (curLaser : Item) :
  (forall j s, f (game (hitBody i curLaser j s)) = f (game s)) ->
  forall s, f (game (hitScan i curLaser s)) = f (game s).
Proof.
  intros Hbody s. unfold hitScan.
  apply (forLoop_frame _ _ (fun s => f (game s))). exact Hbody.
Qed.

Lemma laserBody_frame {B : Type} (f : Game -> B) :
  (forall g l, f (setLasers g l) = f g) ->
  (forall g l, f (setLaserDir g l) = f g) ->
  (forall g l, f (setMines g l) = f g) ->
  (forall g l, f (setExplosions g l) = f g) ->
  forall i g, f (laserBody i g) = f g.
Proof.
  intros HL HD HM HE i g. unfold laserBody.
  destruct (lasers g !! i) as [l|]; [|reflexivity].
  rewrite hitScan_frame.
  - destruct (outOfBounds _); unfold removeLaser; simpl; rewrite ?HD, ?HL; reflexivity.
  - intros j s. unfold hitBody, removeLaser, removeMine.
    repeat case_match; simpl; rewrite ?HD, ?HL, ?HM, ?HE; reflexivity.
Qed.

Lemma starPass_frame (g : Game) :
  ship (starPass g) = ship g /\ mouseVector (starPass g) = mouseVector g
  /\ mines (starPass g) = mines g /\ lasers (starPass g) = lasers g
  /\ laserDir (starPass g) = laserDir g /\ explosions (starPass g) = explosions g.
Proof.
  unfold starPass. repeat split; apply forLoop_frame; frame_body.
Qed.

Lemma minePass_frame (g : Game) :
  ship (minePass g) = ship g /\ mouseVector (minePass g) = mouseVector g
  /\ stars (minePass g) = stars g /\ lasers (minePass g) = lasers g
  /\ laserDir (minePass g) = laserDir g.
Proof.
  unfold minePass. repeat split; apply forLoop_frame; frame_body.
Qed.

Lemma mineBody_some (i : nat) (g : Game) (curMine : Item) :
  mines g !! i = Some curMine ->
  mineBody i g =
    let g1 := setMines g (<[i := moveMine g curMine]> (mines g)) in
    if hitTest (moveMine g curMine) (position (ship g)) then removeMine i g1 else g1.
Proof.
  intros Hi. unfold mineBody. rewrite Hi. reflexivity.
Qed.

Lemma laserPass_frame (g : Game) :
  ship (laserPass g) = ship g /\ mouseVector (laserPass g) = mouseVector g
  /\ stars (laserPass g) = stars g.
Proof.
  unfold laserPass. repeat split; apply forLoop_frame; apply laserBody_frame; reflexivity.
Qed.

Lemma explosionPass_frame (g : Game) :
  ship (explosionPass g) = ship g /\ mouseVector (explosionPass g) = mouseVector g
  /\ stars (explosionPass g) = stars g /\ lasers (explosionPass g) = lasers g
  /\ laserDir (explosionPass g) = laserDir g /\ mines (explosionPass g) = mines g.
Proof.
  unfold explosionPass. repeat split; apply forLoop_frame; frame_body.
Qed.

Lemma capMines_frame (g : Game) :
  ship (capMines g) = ship g /\ mouseVector (capMines g) = mouseVector g
  /\ stars (capMines g) = stars g /\ lasers (capMines g) = lasers g
  /\ laserDir (capMines g) = laserDir g.
Proof. repeat split; frame_body. Qed.

Lemma update_ship (g : Game) : ship (update g) = ship g.
Proof.
  unfold update, scans.
  rewrite (proj1 (capMines_frame _)), (proj1 (explosionPass_frame _)),
    (proj1 (laserPass_frame _)), (proj1 (minePass_frame _)), (proj1 (starPass_frame _)).
  reflexivity.
Qed.

Lemma update_mouseVector (g : Game) : mouseVector (update g) = mouseVector g.
Proof.
  unfold update, scans.
  rewrite (proj1 (proj2 (capMines_frame _))), (proj1 (proj2 (explosionPass_frame _))),
    (proj1 (proj2 (laserPass_frame _))), (proj1 (proj2 (minePass_frame _))),
    (proj1 (proj2 (starPass_frame _))).
  reflexivity.
Qed.

Lemma step_ship_position (e : Event) (g : Game) :
  position (ship (step e g)) = position (ship g).
Proof.
  destruct e; simpl; [rewrite update_ship| | |]; reflexivity.
Qed.

Lemma run_ship_position (es : list Event) (g : Game) :
  position (ship (run es g)) = position (ship g).
Proof.
  revert g. induction es as [|e es IH]; intros g; simpl; [reflexivity|].
  rewrite IH. apply step_ship_position.
Qed.

(** C10. One call of [update] leaves the ship as it was, position and
    rotation; [onMouseMove] sets the rotation to the aim angle plus 90 and
    keeps the position; no handler moves the ship, so along every sequence
    of frames, mouse moves, shots and spawns its position stays where it
    was placed. *)
Theorem update_never_modifies_ship (g : Game) :
  ship (update g) = ship g
  /\ (forall p, position (ship (onMouseMove p g)) = position (ship g)
                /\ rotation (ship (onMouseMove p g)) = angle (Point.subtract p viewCenter) + 90)
  /\ ship (onMouseDown g) = ship g
  /\ (forall r0 r1 r2, ship (spawnMine r0 r1 r2 g) = ship g)
  /\ (forall es, position (ship (run es g)) = position (ship g)).
Proof.
  split; [apply update_ship|].
  split; [intros p; split; reflexivity|].
  split; [reflexivity|].
  split; [reflexivity|].
  intros es. apply run_ship_position.
Qed.

(** C8. A firing of the spawner appends one mine, placed at the point the
    off-screen rule computes from the current aim and three random draws,
    whatever the number of mines already present; no mine is removed and
    nothing else changes. *)
Theorem spawnMine_adds_one_mine (g : Game) (r0 r1 r2 : Q) :
  mines (spawnMine r0 r1 r2 g) = mines g ++ [place mineSymbol (pointOOB g r0 r1 r2)]
  /\ position (place mineSymbol (pointOOB g r0 r1 r2)) = pointOOB g r0 r1 r2
  /\ length (mines (spawnMine r0 r1 r2 g)) = Datatypes.S (length (mines g))
  /\ (forall j m, mines g !! j = Some m -> mines (spawnMine r0 r1 r2 g) !! j = Some m)
  /\ explosions (spawnMine r0 r1 r2 g) = explosions g
  /\ lasers (spawnMine r0 r1 r2 g) = lasers g
  /\ laserDir (spawnMine r0 r1 r2 g) = laserDir g.
Proof.
  unfold spawnMine; simpl. repeat split.
  - rewrite length_app. simpl. lia.
  - intros j m Hj. apply lookup_app_l_Some. exact Hj.
Qed.

End Properties.

Section MineDestruction.
Context `{Paper}.

Lemma capMines_over (g : Game) :
  (30 < length (mines g))%nat -> capMines g = removeMine 0 g.
Proof.
  intros Hlen. unfold capMines.
  destruct (Nat.ltb_spec 30 (length (mines g))); [reflexivity|lia].
Qed.

Lemma hitBody_hit (i : nat) (curLaser : Item) (j : nat) (s : Scan) (mine : Item) :
  mines (game s) !! j = Some mine ->
  hitTest curLaser (position mine) = true ->
  hitBody i curLaser j s = removeLaser i (mkScan (removeMine j (game s)) (attached s)).
Proof. intros Hj Hhit. unfold hitBody. rewrite Hj, Hhit. reflexivity. Qed.

Lemma removeLaser_mines (i : nat) (s : Scan) :
  mines (game (removeLaser i s)) = mines (game s)
  /\ explosions (game (removeLaser i s)) = explosions (game s).
Proof. unfold removeLaser. destruct (attached s); split; reflexivity. Qed.

(** C7. [removeMine] on the mine at index [j] appends exactly one
    explosion, placed at that mine's position, to the explosion group and
    removes exactly that mine from the mine group, leaving everything
    else alone.  The three triggers go through it: a mine that touches
    the ship in the mine scan, a mine hit by a laser in the laser scan,
    and the oldest mine when the cap test finds more than 30. *)
Theorem removeMine_one_explosion_one_mine (g : Game) (j : nat) (mine : Item) :
  mines g !! j = Some mine ->
  let g' := removeMine j g in
  (explosions g' = explosions g ++ [place explosionSymbol (position mine)]
   /\ position (place explosionSymbol (position mine)) = position mine
   /\ length (explosions g') = Datatypes.S (length (explosions g))
   /\ mines g' = delete j (mines g)
   /\ Datatypes.S (length (mines g')) = length (mines g)
   /\ lasers g' = lasers g /\ laserDir g' = laserDir g /\ stars g' = stars g
   /\ ship g' = ship g /\ mouseVector g' = mouseVector g)
  /\ (forall g0 m0, mines g0 !! j = Some m0 ->
        g = setMines g0 (<[j := moveMine g0 m0]> (mines g0)) ->
        hitTest (moveMine g0 m0) (position (ship g0)) = true ->
        mineBody j g0 = g')
  /\ (forall i curLaser a, hitTest curLaser (position mine) = true ->
        mines (game (hitBody i curLaser j (mkScan g a))) = mines g'
        /\ explosions (game (hitBody i curLaser j (mkScan g a))) = explosions g')
  /\ (j = 0%nat -> (30 < length (mines g))%nat -> capMines g = g').
Proof.
  intros Hj g'. subst g'. split; [|split; [|split]].
  - rewrite (removeMine_some _ _ _ Hj). simpl.
    repeat split.
    + rewrite length_app. simpl. lia.
    + apply length_delete_lookup in Hj. lia.
  - intros g0 m0 H0 Hg Hhit. rewrite (mineBody_some _ _ _ H0). simpl.
    rewrite Hhit, Hg. reflexivity.
  - intros i curLaser a Hhit.
    rewrite (hitBody_hit i curLaser j (mkScan g a) mine Hj Hhit).
    apply (removeLaser_mines i (mkScan (removeMine j g) a)).
  - intros -> Hlen. apply capMines_over. exact Hlen.
Qed.

End MineDestruction.

Lemma removeMine_one_explosion_one_mine_witness :
  mines Example.oneMine !! 0%nat = Some (Example.mineAt (mkPoint 100 100))
  /\ explosions (removeMine 0 Example.oneMine) = [place explosionSymbol (mkPoint 100 100)]
  /\ mines (removeMine 0 Example.oneMine) = [].
Proof.
  assert (Hj : mines Example.oneMine !! 0%nat = Some (Example.mineAt (mkPoint 100 100)))
    by reflexivity.
  split; [exact Hj|].
  destruct (removeMine_one_explosion_one_mine Example.oneMine 0
              (Example.mineAt (mkPoint 100 100)) Hj) as [[He [_ [_ [Hm _]]]] _].
  split; [exact He|exact Hm].
Defined.

(** ** The remainder operator *)

Lemma trunc_comp (a a' : Q) : a == a' -> trunc a = trunc a'.
Proof.
  intros E. unfold trunc, ltb.
  rewrite (Qleb_comp 0 0 (Qeq_refl 0) a a' E), (Qfloor_comp a a' E), (Qceiling_comp a a' E).
  reflexivity.
Qed.

Lemma jsmod_comp (a a' b : Q) : a == a' -> jsmod a b == jsmod a' b.
Proof.
  intros E. unfold jsmod. rewrite (trunc_comp (a / b) (a' / b)) by (rewrite E; reflexivity).
  rewrite E. reflexivity.
Qed.

Lemma ltb_comp (a a' b : Q) : a == a' -> ltb a b = ltb a' b.
Proof.
  intros E. unfold ltb. rewrite (Qleb_comp b b (Qeq_refl b) a a' E). reflexivity.
Qed.

(** A non-negative dividend leaves a remainder in [[0, b)]. *)
Lemma jsmod_nonneg (a b : Q) : 0 < b -> 0 <= a -> 0 <= jsmod a b /\ jsmod a b < b.
Proof.
  intros Hb Ha. unfold jsmod, trunc.
  assert (Hq : 0 <= a / b) by (apply Qle_shift_div_l; [exact Hb|lra]).
  destruct (ltb_spec (a / b) 0) as [Hneg|_]; [lra|].
  pose proof (Qfloor_le (a / b)) as Hlo.
  pose proof (Qlt_floor (a / b)) as Hhi.
  rewrite inject_Z_plus in Hhi. change (inject_Z 1) with 1 in Hhi.
  set (f := inject_Z (Qfloor (a / b))) in *.
  assert (Ea : a - b * f == b * (a / b - f)) by (field; lra).
  rewrite Ea. split.
  - apply Qmult_le_0_compat; lra.
  - assert (b * (a / b - f) < b * 1) by (apply Qmult_lt_l; [exact Hb|lra]).
    lra.
Qed.

(** A negative dividend leaves a remainder in [(-b, 0]]. *)
Lemma jsmod_neg (a b : Q) : 0 < b -> a < 0 -> - b < jsmod a b /\ jsmod a b <= 0.
Proof.
  intros Hb Ha. unfold jsmod, trunc.
  assert (Hq : a / b < 0) by (apply Qlt_shift_div_r; [exact Hb|lra]).
  destruct (ltb_spec (a / b) 0) as [_|Hpos]; [|lra].
  pose proof (Qle_ceiling (a / b)) as Hhi.
  pose proof (Qceiling_lt (a / b)) as Hlo.
  unfold Z.sub in Hlo. rewrite inject_Z_plus, inject_Z_opp in Hlo.
  change (inject_Z 1) with 1 in Hlo.
  set (c := inject_Z (Qceiling (a / b))) in *.
  assert (Ea : a - b * c == - (b * (c - a / b))) by (field; lra).
  rewrite Ea.
  assert (0 <= b * (c - a / b)) by (apply Qmult_le_0_compat; lra).
  assert (b * (c - a / b) < b * 1) by (apply Qmult_lt_l; [exact Hb|lra]).
  lra.
Qed.

Lemma wrapCoord_comp (v v' bound : Q) : v == v' -> wrapCoord v bound == wrapCoord v' bound.
Proof.
  intros E. unfold wrapCoord. cbv zeta.
  rewrite (ltb_comp _ _ 0 (jsmod_comp v v' bound E)).
  destruct (ltb (jsmod v' bound) 0); [reflexivity|apply jsmod_comp, E].
Qed.

(** The wrapped coordinate is always in [[0, bound]]; it is below the
    bound for a coordinate that was not negative, and it is the bound
    itself for a negative coordinate that is not a multiple of the bound. *)
Lemma wrapCoord_range (v bound : Q) :
  0 < bound ->
  (0 <= wrapCoord v bound /\ wrapCoord v bound <= bound)
  /\ (0 <= v -> wrapCoord v bound < bound)
  /\ (v < 0 -> wrapCoord v bound == bound \/ wrapCoord v bound == 0).
Proof.
  intros Hb. unfold wrapCoord. cbv zeta.
  destruct (Qlt_le_dec v 0) as [Hv|Hv].
  - destruct (jsmod_neg v bound Hb Hv) as [Hlo Hhi].
    destruct (ltb_spec (jsmod v bound) 0) as [Hm|Hm].
    + split; [split; lra|]. split; [intros Hv'; lra|]. intros _. left. reflexivity.
    + split; [split; lra|]. split; [intros Hv'; lra|]. intros _. right. lra.
  - destruct (jsmod_nonneg v bound Hb Hv) as [Hlo Hhi].
    destruct (ltb_spec (jsmod v bound) 0) as [Hm|Hm]; [lra|].
    split; [split; lra|]. split; [intros _; lra|]. intros Hv'. lra.
Qed.

Lemma wrapStar_position (s : Item) :
  position (wrapStar s) =
    mkPoint (wrapCoord (x (position s)) width) (wrapCoord (y (position s)) height).
Proof.
  unfold wrapStar, wrapCoord. cbv zeta.
  destruct (ltb (x (position (setX s _))) 0) eqn:Ex; simpl in Ex; rewrite Ex;
    simpl; destruct (ltb (jsmod (y (position s)) height) 0); reflexivity.
Qed.

(** C6. One application of the wrap rule to a star: from [x = width + 5]
    the star ends with [x] in [[0, width)]; from [x = -3] it ends with
    [x = width]; the same holds for [y] with [height]; and each wrapped
    coordinate is computed from that coordinate and its bound alone. *)
Theorem wrapStar_clamps_to_bound (s : Item) :
  (x (position s) == width + 5 ->
     0 <= x (position (wrapStar s)) /\ x (position (wrapStar s)) < width)
  /\ (x (position s) == -3 -> x (position (wrapStar s)) == width)
  /\ (y (position s) == height + 5 ->
     0 <= y (position (wrapStar s)) /\ y (position (wrapStar s)) < height)
  /\ (y (position s) == -3 -> y (position (wrapStar s)) == height)
  /\ x (position (wrapStar s)) = wrapCoord (x (position s)) width
  /\ y (position (wrapStar s)) = wrapCoord (y (position s)) height.
Proof.
  rewrite wrapStar_position. simpl.
  split; [|split; [|split; [|split; [|split; reflexivity]]]].
  - intros E. rewrite (wrapCoord_comp _ _ width E). vm_compute. split; [discriminate|reflexivity].
  - intros E. rewrite (wrapCoord_comp _ _ width E). reflexivity.
  - intros E. rewrite (wrapCoord_comp _ _ height E). vm_compute. split; [discriminate|reflexivity].
  - intros E. rewrite (wrapCoord_comp _ _ height E). reflexivity.
Qed.

Lemma wrapStar_clamps_to_bound_witness :
  (0 <= x (position (wrapStar Example.starRightAbove))
   /\ x (position (wrapStar Example.starRightAbove)) < width)
  /\ y (position (wrapStar Example.starRightAbove)) == height
  /\ x (position (wrapStar Example.starLeftBelow)) == width
  /\ (0 <= y (position (wrapStar Example.starLeftBelow))
      /\ y (position (wrapStar Example.starLeftBelow)) < height).
Proof.
  destruct (wrapStar_clamps_to_bound Example.starRightAbove) as [Hx [_ [_ [Hy _]]]].
  destruct (wrapStar_clamps_to_bound Example.starLeftBelow) as [_ [Hx' [Hy' _]]].
  split; [apply Hx; reflexivity|].
  split; [apply Hy; reflexivity|].
  split; [apply Hx'; reflexivity|apply Hy'; reflexivity].
Defined.

(** ** The off-screen point rule *)

Ltac split_cmp :=
  repeat match goal with
  | |- context [ltb ?a ?b] => destruct (ltb_spec a b); try lra
  | |- context [gtb ?a ?b] => destruct (gtb_spec a b); try lra
  | |- context [leb ?a ?b] => destruct (leb_spec a b); try lra
  | |- context [geb ?a ?b] => destruct (geb_spec a b); try lra
  end.

Ltac oob_point :=
  unfold pointOOBAt, width, height; split_cmp; simpl; unfold width, height; lra.

Lemma pointOOBAt_right (a r0 r1 r2 : Q) :
  0 <= r1 < 1 -> 0 <= r2 < 1 -> -45 <= a < 45 ->
  bucketed RightEdge r0 (pointOOBAt a r0 r1 r2).
Proof. intros H1 H2 Ha. split; intros H0; simpl; oob_point. Qed.

Lemma pointOOBAt_top (a r0 r1 r2 : Q) :
  0 <= r1 < 1 -> 0 <= r2 < 1 -> -135 < a < -45 ->
  bucketed TopEdge r0 (pointOOBAt a r0 r1 r2).
Proof. intros H1 H2 Ha. split; intros H0; simpl; oob_point. Qed.

Lemma pointOOBAt_left (a r0 r1 r2 : Q) :
  0 <= r1 < 1 -> 0 <= r2 < 1 -> 135 <= a <= 180 \/ -180 <= a < -135 ->
  bucketed LeftEdge r0 (pointOOBAt a r0 r1 r2).
Proof. intros H1 H2 [Ha|Ha]; split; intros H0; simpl; oob_point. Qed.

Lemma pointOOBAt_bottom (a r0 r1 r2 : Q) :
  0 <= r1 < 1 -> 0 <= r2 < 1 ->
  45 <= a < 135 \/ a == -135 \/ 180 < a \/ a < -180 ->
  bucketed BottomEdge r0 (pointOOBAt a r0 r1 r2).
Proof. intros H1 H2 [Ha|[Ha|[Ha|Ha]]]; split; intros H0; simpl; oob_point. Qed.

(** C3 (amended). The edge is chosen by these buckets of the aim angle:
    [[-45, 45)] the right edge; [(-135, -45)] the top edge; [[135, 180]]
    or [[-180, -135)] the left edge; every other angle the bottom edge.
    The 75% branch places the point past that edge and the 25% branch
    past the opposite edge.  The angle -45 itself belongs to the right
    edge, not to the top edge. *)
Theorem pointOOBAt_angle_buckets (a r0 r1 r2 : Q) :
  0 <= r1 < 1 -> 0 <= r2 < 1 ->
  (-45 <= a < 45 -> bucketed RightEdge r0 (pointOOBAt a r0 r1 r2))
  /\ (-135 < a < -45 -> bucketed TopEdge r0 (pointOOBAt a r0 r1 r2))
  /\ (135 <= a <= 180 \/ -180 <= a < -135 -> bucketed LeftEdge r0 (pointOOBAt a r0 r1 r2))
  /\ (45 <= a < 135 \/ a == -135 \/ 180 < a \/ a < -180 ->
      bucketed BottomEdge r0 (pointOOBAt a r0 r1 r2)).
Proof.
  intros H1 H2. split; [|split; [|split]]; intros Ha.
  - apply pointOOBAt_right; assumption.
  - apply pointOOBAt_top; assumption.
  - apply pointOOBAt_left; assumption.
  - apply pointOOBAt_bottom; assumption.
Qed.

Lemma half_unit : 0 <= 1 # 2 < 1.
Proof. split; [discriminate|reflexivity]. Qed.

Lemma pointOOBAt_angle_buckets_witness :
  bucketed RightEdge 0 (pointOOBAt (-45) 0 (1 # 2) (1 # 2))
  /\ bucketed TopEdge 0 (pointOOBAt (-90) 0 (1 # 2) (1 # 2))
  /\ bucketed LeftEdge 0 (pointOOBAt 180 0 (1 # 2) (1 # 2))
  /\ bucketed BottomEdge 0 (pointOOBAt 90 0 (1 # 2) (1 # 2)).
Proof.
  split; [|split; [|split]].
  - apply (pointOOBAt_angle_buckets (-45) 0 (1 # 2) (1 # 2) half_unit half_unit).
    split; [discriminate|reflexivity].
  - apply (pointOOBAt_angle_buckets (-90) 0 (1 # 2) (1 # 2) half_unit half_unit).
    split; reflexivity.
  - apply (pointOOBAt_angle_buckets 180 0 (1 # 2) (1 # 2) half_unit half_unit).
    left. split; discriminate.
  - apply (pointOOBAt_angle_buckets 90 0 (1 # 2) (1 # 2) half_unit half_unit).
    left. split; [discriminate|reflexivity].
Defined.

(** C3 as stated fails at the aim angle -45: the stated buckets give the
    top edge, the code places the point past the right edge. *)
Lemma specEdge_differs_at_minus_45 :
  specEdge (-45) = TopEdge
  /\ ~ bucketed (specEdge (-45)) 0 (pointOOBAt (-45) 0 (1 # 2) (1 # 2))
  /\ bucketed RightEdge 0 (pointOOBAt (-45) 0 (1 # 2) (1 # 2)).
Proof.
  split; [reflexivity|]. split.
  - intros [Hahead _].
    assert (H0 : 0 < 0.75) by reflexivity.
    destruct (Hahead H0) as [[_ Hx] _]. vm_compute in Hx. discriminate.
  - apply pointOOBAt_right; try exact half_unit. split; [discriminate|reflexivity].
Qed.





(** ** The laser scan *)

Section LaserScan.
Context `{Paper}.

Lemma removeMine_lasers (j : nat) (g : Game) :
  lasers (removeMine j g) = lasers g /\ laserDir (removeMine j g) = laserDir g.
Proof. unfold removeMine. destruct (mines g !! j); split; reflexivity. Qed.

Lemma removeLaser_scanState (i : nat) (ls : list Item) (ds : list Point) (s : Scan) :
  scanState i ls ds s -> scanState i ls ds (removeLaser i s).
Proof.
  intros [[Ha [Hl Hd]]|[Ha Hl]]; right; unfold removeLaser; rewrite Ha; simpl.
  - split; [reflexivity|]. unfold splice. rewrite Hl. reflexivity.
  - split; [reflexivity|exact Hl].
Qed.

Lemma hitBody_scanState (i : nat) (cur : Item) (ls : list Item) (ds : list Point)
    (j : nat) (s : Scan) :
  scanState i ls ds s -> scanState i ls ds (hitBody i cur j s).
Proof.
  intros Hs. unfold hitBody.
  destruct (mines (game s) !! j) as [mine|]; [|exact Hs].
  destruct (hitTest cur (position mine)); [|exact Hs].
  apply removeLaser_scanState.
  destruct (removeMine_lasers j (game s)) as [El Ed].
  destruct Hs as [[Ha [Hl Hd]]|[Ha Hl]]; [left|right]; simpl; rewrite ?El, ?Ed; auto.
Qed.

Lemma hitScan_scanState (i : nat) (cur : Item) (ls : list Item) (ds : list Point) (s : Scan) :
  scanState i ls ds s -> scanState i ls ds (hitScan i cur s).
Proof.
  intros Hs. unfold hitScan. apply forLoop_inv; [|exact Hs].
  intros j s' _. apply hitBody_scanState.
Qed.

(** Once detached, the laser stays detached. *)
Lemma hitBody_detached (i : nat) (cur : Item) (j : nat) (s : Scan) :
  attached s = false -> attached (hitBody i cur j s) = false.
Proof.
  intros Ha. unfold hitBody.
  destruct (mines (game s) !! j) as [mine|]; [|exact Ha].
  destruct (hitTest cur (position mine)); [reflexivity|exact Ha].
Qed.

(** Without a hit the inner scan changes nothing. *)
Lemma hitScan_no_hit (i : nat) (cur : Item) (s : Scan) :
  (forall mine, mine ∈ mines (game s) -> hitTest cur (position mine) = false) ->
  hitScan i cur s = s.
Proof.
  intros Hno. unfold hitScan.
  apply (forLoop_inv _ _ (fun s' => s' = s)); [|reflexivity].
  intros j s' _ ->. unfold hitBody.
  destruct (mines (game s) !! j) as [mine|] eqn:Hj; [|reflexivity].
  rewrite Hno; [reflexivity|].
  apply list_elem_of_lookup. exists j. exact Hj.
Qed.

(** The inner scan reaches the first mine that is hit, and detaches the
    laser there. *)
Lemma hitScan_first_hit (i : nat) (cur : Item) :
  forall fuel j s j0 mine,
    (j <= j0)%nat -> (j0 < j + fuel)%nat ->
    mines (game s) !! j0 = Some mine ->
    hitTest cur (position mine) = true ->
    (forall j' m, (j <= j' < j0)%nat -> mines (game s) !! j' = Some m ->
                  hitTest cur (position m) = false) ->
    attached (forLoop (fun s => length (mines (game s))) (hitBody i cur) fuel j s) = false.
Proof.
  induction fuel as [|fuel IH]; intros j s j0 mine Hle Hfuel Hj0 Hhit Hbefore; [lia|].
  simpl. pose proof (lookup_lt_Some _ _ _ Hj0) as Hlen.
  destruct (Nat.ltb_spec j (length (mines (game s)))); [|lia].
  destruct (decide (j = j0)) as [->|Hne].
  - rewrite (hitBody_hit i cur j0 s mine Hj0 Hhit).
    apply (forLoop_inv _ _ (fun s' => attached s' = false)); [|reflexivity].
    intros j' s' _. apply hitBody_detached.
  - assert (Hj : hitBody i cur j s = s).
    { unfold hitBody. destruct (mines (game s) !! j) as [m|] eqn:Em; [|reflexivity].
      rewrite (Hbefore j m); [reflexivity|lia|exact Em]. }
    rewrite Hj. apply (IH (j + 1)%nat s j0 mine); try assumption; try lia.
    intros j' m Hj'. apply Hbefore. lia.
Qed.

End LaserScan.

Lemma delete_insert_same {A : Type} (l : list A) (i : nat) (a : A) :
  delete i (<[i := a]> l) = delete i l.
Proof.
  revert i. induction l as [|b l IH]; intros i; [destruct i; reflexivity|].
  destruct i as [|i]; simpl; [reflexivity|]. f_equal. apply IH.
Qed.

Lemma first_true {A : Type} (f : A -> bool) (l : list A) :
  (exists a, a ∈ l /\ f a = true) ->
  exists j0 a0, l !! j0 = Some a0 /\ f a0 = true
    /\ forall j a, (j < j0)%nat -> l !! j = Some a -> f a = false.
Proof.
  induction l as [|b l IH]; intros [a [Hin Ha]].
  - apply elem_of_nil in Hin. contradiction.
  - destruct (f b) eqn:Hb.
    + exists 0%nat, b. split; [reflexivity|]. split; [exact Hb|]. intros j a' Hj. lia.
    + apply elem_of_cons in Hin. destruct Hin as [->|Hin]; [congruence|].
      destruct IH as [j0 [a0 [Hj0 [Ha0 Hmin]]]]; [exists a; split; assumption|].
      exists (Datatypes.S j0), a0. split; [exact Hj0|]. split; [exact Ha0|].
      intros j a' Hj Hl. destruct j as [|j]; simpl in Hl.
      * inversion Hl. subst. exact Hb.
      * apply (Hmin j a'); [lia|exact Hl].
Qed.

Section LaserBody.
Context `{Paper}.

Variables (i : nat) (g : Game) (l : Item).
Hypothesis Hi : lasers g !! i = Some l.

(** The laser after line 177. *)
Local Abbreviation cur := (translate l (laserDirAt g i)).

Lemma laserBody_some :
  laserBody i g =
    let s1 := mkScan (setLasers g (<[i := cur]> (lasers g))) true in
    game (hitScan i cur (if outOfBounds (position cur) then removeLaser i s1 else s1)).
Proof. unfold laserBody. rewrite Hi. reflexivity. Qed.

Lemma laserBody_scanState :
  exists s, laserBody i g = game s
    /\ scanState i (<[i := cur]> (lasers g)) (laserDir g) s.
Proof.
  rewrite laserBody_some. cbv zeta. eexists. split; [reflexivity|].
  apply hitScan_scanState.
  destruct (outOfBounds (position cur)).
  - apply removeLaser_scanState. left. repeat split.
  - left. repeat split.
Qed.

(** One iteration either keeps the laser, moved, and leaves the direction
    list alone, or removes the laser from the group. *)
Lemma laserBody_cases :
  (lasers (laserBody i g) = <[i := cur]> (lasers g) /\ laserDir (laserBody i g) = laserDir g)
  \/ lasers (laserBody i g) = delete i (lasers g).
Proof.
  destruct laserBody_scanState as [s [-> [[_ [Hl Hd]]|[_ Hl]]]].
  - left. split; assumption.
  - right. rewrite Hl. apply delete_insert_same.
Qed.

(** A laser whose new position is outside the rectangle is removed. *)
Lemma laserBody_outside :
  outOfBounds (position cur) = true -> lasers (laserBody i g) = delete i (lasers g).
Proof.
  intros Hout. rewrite laserBody_some. cbv zeta. rewrite Hout.
  set (s1 := mkScan (setLasers g (<[i := cur]> (lasers g))) true).
  assert (Hs : scanState i (<[i := cur]> (lasers g)) (laserDir g) (removeLaser i s1)).
  { apply removeLaser_scanState. left. repeat split. }
  pose proof (hitScan_scanState i cur _ _ _ Hs) as [[Ha _]|[_ Hl]].
  - assert (Hd : attached (hitScan i cur (removeLaser i s1)) = false).
    { unfold hitScan. apply (forLoop_inv _ _ (fun s' => attached s' = false)); [|reflexivity].
      intros j s' _. apply hitBody_detached. }
    congruence.
  - rewrite Hl. apply delete_insert_same.
Qed.

(** A laser that hits one of the mines is removed, wherever it is. *)
Lemma laserBody_hit :
  (exists mine, mine ∈ mines g /\ hitTest cur (position mine) = true) ->
  lasers (laserBody i g) = delete i (lasers g).
Proof.
  intros Hex.
  destruct (outOfBounds (position cur)) eqn:Hout; [apply laserBody_outside; exact Hout|].
  destruct (first_true (fun m => hitTest cur (position m)) (mines g) Hex)
    as [j0 [mine [Hj0 [Hhit Hmin]]]].
  rewrite laserBody_some. cbv zeta. rewrite Hout.
  set (s1 := mkScan (setLasers g (<[i := cur]> (lasers g))) true).
  assert (Hs : scanState i (<[i := cur]> (lasers g)) (laserDir g) s1)
    by (left; repeat split).
  pose proof (hitScan_scanState i cur _ _ _ Hs) as [[Ha _]|[_ Hl]].
  - assert (Hd : attached (hitScan i cur s1) = false).
    { unfold hitScan. apply (hitScan_first_hit i cur _ 0%nat s1 j0 mine).
      - lia.
      - simpl. apply lookup_lt_Some in Hj0. lia.
      - exact Hj0.
      - exact Hhit.
      - intros j' m [_ Hj'] Hm. apply (Hmin j' m Hj' Hm). }
    congruence.
  - rewrite Hl. apply delete_insert_same.
Qed.

(** Without a hit, the laser is removed, together with the direction at
    its index, when its new position is outside the rectangle, and it is
    kept, moved, otherwise; nothing else changes. *)
Lemma laserBody_no_hit :
  (forall mine, mine ∈ mines g -> hitTest cur (position mine) = false) ->
  laserBody i g =
    if outOfBounds (position cur)
    then setLaserDir (setLasers g (delete i (lasers g))) (delete i (laserDir g))
    else setLasers g (<[i := cur]> (lasers g)).
Proof.
  intros Hno. rewrite laserBody_some. cbv zeta.
  rewrite hitScan_no_hit.
  - destruct (outOfBounds (position cur)); [|reflexivity].
    unfold removeLaser, splice. simpl. rewrite delete_insert_same. reflexivity.
  - destruct (outOfBounds (position cur)); exact Hno.
Qed.

End LaserBody.

Section LaserPass.
Context `{Paper}.

Lemma laserBody_lasers_le (i : nat) (g : Game) :
  (length (lasers (laserBody i g)) <= length (lasers g))%nat.
Proof.
  destruct (lasers g !! i) as [l|] eqn:Hi.
  - destruct (laserBody_cases i g l Hi) as [[-> _]| ->].
    + rewrite length_insert. lia.
    + apply length_delete_le.
  - unfold laserBody. rewrite Hi. lia.
Qed.

(** An iteration that keeps the length of the laser group kept the laser. *)
Lemma laserBody_same_length (i : nat) (g : Game) (l : Item) :
  lasers g !! i = Some l ->
  length (lasers (laserBody i g)) = length (lasers g) ->
  lasers (laserBody i g) = <[i := translate l (laserDirAt g i)]> (lasers g)
  /\ laserDir (laserBody i g) = laserDir g.
Proof.
  intros Hi Hlen. destruct (laserBody_cases i g l Hi) as [Hkept|Hgone]; [exact Hkept|].
  rewrite Hgone in Hlen. apply length_delete_lookup in Hi. lia.
Qed.

(** A scan of the lasers that keeps the length of the group has moved
    every laser from index [i] on by the direction at its index, and has
    left the direction list alone. *)
Lemma laserLoop_same_length :
  forall fuel i g,
    (length (lasers g) - i <= fuel)%nat ->
    let g' := forLoop (fun s => length (lasers s)) laserBody fuel i g in
    length (lasers g') = length (lasers g) ->
    laserDir g' = laserDir g
    /\ forall k l, lasers g !! k = Some l ->
         lasers g' !! k = Some (if (k <? i)%nat then l else translate l (laserDirAt g k)).
Proof.
  induction fuel as [|fuel IH]; intros i g Hfuel g' Hlen; subst g'.
  - simpl. split; [reflexivity|]. intros k l Hk.
    apply lookup_lt_Some in Hk as Hlt.
    destruct (Nat.ltb_spec k i); [exact Hk|lia].
  - simpl in *. destruct (Nat.ltb_spec i (length (lasers g))) as [Hlt|Hge].
    + destruct (lookup_lt_is_Some_2 _ _ Hlt) as [li Hi].
      pose proof (forLoop_le (fun s => length (lasers s)) laserBody
                    (fun s => length (lasers s)) laserBody_lasers_le
                    fuel (i + 1)%nat (laserBody i g)) as Hle.
      pose proof (laserBody_lasers_le i g) as Hle'.
      assert (Hsame : length (lasers (laserBody i g)) = length (lasers g)) by lia.
      destruct (laserBody_same_length i g li Hi Hsame) as [Hl Hd].
      destruct (IH (i + 1)%nat (laserBody i g)) as [IHd IHl]; [lia|lia|].
      split; [rewrite IHd; exact Hd|].
      intros k l Hk. unfold laserDirAt in *.
      destruct (decide (k = i)) as [->|Hne].
      * assert (l = li) by congruence. subst l.
        rewrite (IHl i (translate li (default Point.zero (laserDir g !! i)))).
        -- destruct (Nat.ltb_spec i (i + 1)); [|lia].
           destruct (Nat.ltb_spec i i); [lia|reflexivity].
        -- rewrite Hl. apply list_lookup_insert_eq. exact Hlt.
      * rewrite (IHl k l).
        -- rewrite Hd.
           destruct (Nat.ltb_spec k (i + 1)), (Nat.ltb_spec k i); try reflexivity; lia.
        -- rewrite Hl, list_lookup_insert_ne by congruence. exact Hk.
    + split; [reflexivity|]. intros k l Hk.
      apply lookup_lt_Some in Hk as Hlt.
      destruct (Nat.ltb_spec k i); [exact Hk|lia].
Qed.

Lemma update_same_length (g : Game) :
  length (lasers (update g)) = length (lasers g) ->
  laserDir (update g) = laserDir g
  /\ forall k l, lasers g !! k = Some l ->
       lasers (update g) !! k = Some (translate l (laserDirAt g k)).
Proof.
  unfold update, scans.
  set (g2 := minePass (starPass g)).
  destruct (capMines_frame (explosionPass (laserPass g2))) as [_ [_ [_ [-> ->]]]].
  destruct (explosionPass_frame (laserPass g2)) as [_ [_ [_ [-> [-> _]]]]].
  assert (Hl : lasers g2 = lasers g).
  { unfold g2. destruct (minePass_frame (starPass g)) as [_ [_ [_ [-> _]]]].
    apply starPass_frame. }
  assert (Hd : laserDir g2 = laserDir g).
  { unfold g2. destruct (minePass_frame (starPass g)) as [_ [_ [_ [_ ->]]]].
    apply starPass_frame. }
  rewrite <- Hl, <- Hd. intros Hlen.
  destruct (laserLoop_same_length (length (lasers g2)) 0 g2) as [Hdir Hlook];
    [lia|exact Hlen|].
  split; [exact Hdir|].
  intros k l Hk. unfold laserPass. rewrite (Hlook k l Hk).
  unfold laserDirAt. rewrite Hd.
  destruct (Nat.ltb_spec k 0); [lia|reflexivity].
Qed.

(** Along a trace without laser removal, the laser at index [k] advances
    by the direction at index [k] once per frame. *)
Lemma run_trajectory (es : list Event) :
  forall g k l D,
    lasers g !! k = Some l -> laserDir g !! k = Some D -> noRemoval es g ->
    exists l', lasers (run es g) !! k = Some l'
      /\ Point.eq (position l')
           (Point.add (position l) (Point.multiply D (inject_Z (Z.of_nat (frames es)))))
      /\ laserDir (run es g) !! k = Some D.
Proof.
  induction es as [|e es IH]; intros g k l D Hl Hd Hno.
  - exists l. split; [exact Hl|]. split; [|exact Hd].
    unfold Point.eq; simpl; split; ring.
  - destruct Hno as [He Hno]. destruct e as [|p| |r0 r1 r2].
    + destruct (update_same_length g He) as [Hdir Hlook].
      destruct (IH (update g) k (translate l D) D) as [l' [Hl' [Hp Hd']]].
      * rewrite (Hlook k l Hl). unfold laserDirAt. rewrite Hd. reflexivity.
      * rewrite Hdir. exact Hd.
      * exact Hno.
      * exists l'. split; [exact Hl'|]. split; [|exact Hd'].
        destruct Hp as [Hx Hy]. simpl frames. rewrite Nat2Z.inj_succ.
        unfold Z.succ. unfold Point.eq in *. simpl in *.
        rewrite Hx, Hy, inject_Z_plus. split; ring.
    + apply (IH (onMouseMove p g) k l D Hl Hd Hno).
    + apply (IH (onMouseDown g) k l D); [| |exact Hno]; simpl;
        apply lookup_app_l_Some; assumption.
    + apply (IH (spawnMine r0 r1 r2 g) k l D Hl Hd Hno).
Qed.

End LaserPass.

(** C5 (amended). From a state whose laser group and direction list have
    the same length, a laser fired at the ship's position [P] with stored
    direction [D] is at [P + n·D] after the [n] frames of any trace in
    which no laser is removed.  In the scan, a laser whose new position is
    outside [[0,width]×[0,height]] is removed; so is a laser that hits a
    mine, wherever it is; and when it hits no mine it is removed, with the
    direction at its index, exactly when its new position is outside. *)
Theorem laser_lifecycle `{Paper} (g : Game) :
  (forall es,
     length (lasers g) = length (laserDir g) ->
     noRemoval es (onMouseDown g) ->
     exists l, lasers (run es (onMouseDown g)) !! length (lasers g) = Some l
       /\ Point.eq (position l)
            (Point.add (position (ship g))
               (Point.multiply (normalize (mouseVector g) 7)
                  (inject_Z (Z.of_nat (frames es)))))
       /\ laserDir (run es (onMouseDown g)) !! length (lasers g)
          = Some (normalize (mouseVector g) 7))
  /\ (forall i l, lasers g !! i = Some l ->
        let cur := translate l (laserDirAt g i) in
        (outOfBounds (position cur) = true -> lasers (laserBody i g) = delete i (lasers g))
        /\ ((exists mine, mine ∈ mines g /\ hitTest cur (position mine) = true) ->
            lasers (laserBody i g) = delete i (lasers g))
        /\ ((forall mine, mine ∈ mines g -> hitTest cur (position mine) = false) ->
            laserBody i g =
              if outOfBounds (position cur)
              then setLaserDir (setLasers g (delete i (lasers g))) (delete i (laserDir g))
              else setLasers g (<[i := cur]> (lasers g)))).
Proof.
  split.
  - intros es Halign Hno.
    destruct (run_trajectory es (onMouseDown g) (length (lasers g))
                (setRotation (place laserSymbol (position (ship g))) (angle (mouseVector g)))
                (normalize (mouseVector g) 7)) as [l [Hl [Hp Hd]]].
    + simpl. apply list_lookup_middle. reflexivity.
    + simpl. rewrite Halign. apply list_lookup_middle. reflexivity.
    + exact Hno.
    + exists l. split; [exact Hl|]. split; [exact Hp|exact Hd].
  - intros i l Hi cur. split; [|split].
    + apply (laserBody_outside i g l Hi).
    + apply (laserBody_hit i g l Hi).
    + apply (laserBody_no_hit i g l Hi).
Qed.

Lemma laser_lifecycle_witness :
  (exists l, lasers (run [Frame; Frame; Frame] (onMouseDown Example.aimingRight)) !! 0%nat
             = Some l
     /\ Point.eq (position l)
          (Point.add viewCenter (Point.multiply (Ref.normalize (mkPoint 600 0) 7) 3)))
  /\ lasers (laserBody 0 Example.twoLeaving) = [Example.laserAt (mkPoint 1195 400)].
Proof.
  destruct (laser_lifecycle Example.aimingRight) as [Htraj Hscan]. split.
  - destruct (Htraj [Frame; Frame; Frame]) as [l [Hl [Hp _]]].
    + reflexivity.
    + vm_compute. repeat split.
    + exists l. split; [exact Hl|exact Hp].
  - destruct (laser_lifecycle Example.twoLeaving) as [_ Hscan'].
    destruct (Hscan' 0%nat (Example.laserAt (mkPoint 1195 400))) as [Hout _];
      [reflexivity|].
    apply Hout. reflexivity.
Defined.

(** C5 as stated fails: a laser that hits a mine is removed although its
    position is inside the play area. *)
Lemma laser_removed_inside_play_area :
  lasers Example.laserNearMine = [Example.laserAt (mkPoint 600 100)]
  /\ laserDir Example.laserNearMine = [mkPoint 7 0]
  /\ outOfBounds (position (translate (Example.laserAt (mkPoint 600 100)) (mkPoint 7 0)))
     = false
  /\ lasers (update Example.laserNearMine) = []
  /\ laserDir (update Example.laserNearMine) = [].
Proof. split; [|split; [|split; [|split]]]; vm_compute; reflexivity. Qed.

(** ** The skipped neighbour *)

Section Skip.
Context `{Paper}.



End Skip.


(** ** The population cap *)

Section Cap.
Context `{Paper}.

Lemma mineBody_mines_le (i : nat) (g : Game) :
  (length (mines (mineBody i g)) <= length (mines g))%nat.
Proof.
  unfold mineBody. destruct (mines g !! i) as [curMine|]; [|lia]. cbv zeta.
  destruct (hitTest _ _).
  - etransitivity; [apply removeMine_mines_le|]. simpl. rewrite length_insert. lia.
  - simpl. rewrite length_insert. lia.
Qed.

Lemma hitBody_mines_le (i : nat) (cur : Item) (j : nat) (s : Scan) :
  (length (mines (game (hitBody i cur j s))) <= length (mines (game s)))%nat.
Proof.
  unfold hitBody. destruct (mines (game s) !! j) as [mine|]; [|lia].
  destruct (hitTest cur (position mine)); [|lia].
  rewrite (proj1 (removeLaser_mines i _)). simpl. apply removeMine_mines_le.
Qed.

Lemma laserBody_mines_le (i : nat) (g : Game) :
  (length (mines (laserBody i g)) <= length (mines g))%nat.
Proof.
  unfold laserBody. destruct (lasers g !! i) as [l|]; [|lia]. cbv zeta.
  unfold hitScan.
  etransitivity;
    [apply (forLoop_le _ _ (fun s => length (mines (game s)))); apply hitBody_mines_le|].
  destruct (outOfBounds _); [rewrite (proj1 (removeLaser_mines i _))|]; simpl; lia.
Qed.

(** The four scans never add a mine. *)
Lemma scans_mines_le (g : Game) :
  (length (mines (scans g)) <= length (mines g))%nat.
Proof.
  unfold scans.
  destruct (explosionPass_frame (laserPass (minePass (starPass g))))
    as [_ [_ [_ [_ [_ ->]]]]].
  etransitivity; [apply (forLoop_le _ _ (fun s => length (mines s))), laserBody_mines_le|].
  etransitivity; [apply (forLoop_le _ _ (fun s => length (mines s))), mineBody_mines_le|].
  destruct (starPass_frame g) as [_ [_ [-> _]]]. lia.
Qed.

(** C2 (amended). The cap test runs once, after the scans, and destroys
    one mine: when it finds more than 30 mines, the oldest (index 0) is
    removed and one explosion is placed at its position; otherwise
    nothing happens.  So an update that starts with at most 31 mines ends
    with at most 30. *)
Theorem cap_evicts_one_mine (g : Game) :
  ((length (mines g) <= 31)%nat -> (length (mines (update g)) <= 30)%nat)
  /\ (forall oldest rest,
        mines (scans g) = oldest :: rest -> (30 < length (mines (scans g)))%nat ->
        mines (update g) = rest
        /\ explosions (update g)
           = explosions (scans g) ++ [place explosionSymbol (position oldest)])
  /\ ((length (mines (scans g)) <= 30)%nat -> update g = scans g).
Proof.
  pose proof (scans_mines_le g) as Hle. unfold update, capMines.
  split; [|split].
  - intros H31. destruct (Nat.ltb_spec 30 (length (mines (scans g)))) as [Hover|Hok]; [|lia].
    destruct (mines (scans g)) as [|oldest rest] eqn:Hm; [simpl in Hover; lia|].
    rewrite (removeMine_some 0 (scans g) oldest) by (rewrite Hm; reflexivity).
    simpl. rewrite Hm. simpl in *. lia.
  - intros oldest rest Hm Hover.
    destruct (Nat.ltb_spec 30 (length (mines (scans g)))); [|lia].
    rewrite (removeMine_some 0 (scans g) oldest) by (rewrite Hm; reflexivity).
    simpl. rewrite Hm. split; reflexivity.
  - intros Hok. destruct (Nat.ltb_spec 30 (length (mines (scans g)))); [lia|reflexivity].
Qed.

End Cap.

Lemma cap_evicts_one_mine_witness :
  (length (mines (Example.manyMines 31)) <= 31)%nat
  /\ (length (mines (update (Example.manyMines 31))) <= 30)%nat.
Proof.
  assert (H31 : (length (mines (Example.manyMines 31)) <= 31)%nat) by (vm_compute; lia).
  split; [exact H31|].
  apply (cap_evicts_one_mine (Example.manyMines 31)). exact H31.
Defined.

(** C2 as stated fails: from 32 mines, none of which is destroyed by the
    scans, one update leaves 31. *)
Lemma cap_leaves_31_of_32 :
  (30 < length (mines (Example.manyMines 32)))%nat
  /\ length (mines (update (Example.manyMines 32))) = 31%nat
  /\ ~ (length (mines (update (Example.manyMines 32))) <= 30)%nat.
Proof.
  assert (E : length (mines (update (Example.manyMines 32))) = 31%nat)
    by (vm_compute; reflexivity).
  split; [vm_compute; lia|]. split; [exact E|]. rewrite E. lia.
Qed.

(** ** Alignment of the laser group and the direction list *)

(** C1 fails on the code.  The state has two lasers and two directions.
    The first laser crosses the right edge next to a mine: line 183
    removes its direction, and the hit found by the inner scan removes a
    direction at the same index again (line 196), which is now the
    direction of the second laser.  After the update one laser is left
    and no direction.  Such a state is reached by play from the start of
    the game. *)
Theorem update_breaks_alignment :
  (length (lasers Example.leavingIntoMine) = length (laserDir Example.leavingIntoMine)
   /\ lasers (update Example.leavingIntoMine) = [Example.laserAt (mkPoint 600 100)]
   /\ laserDir (update Example.leavingIntoMine) = []
   /\ length (lasers (update Example.leavingIntoMine))
      <> length (laserDir (update Example.leavingIntoMine)))
  /\ (let g := run Example.shootIntoSpawn Example.started in
      length (lasers g) = 2%nat /\ length (laserDir g) = 2%nat
      /\ length (lasers (update g)) = 1%nat /\ length (laserDir (update g)) = 0%nat).
Proof.
  assert (El : lasers (update Example.leavingIntoMine) = [Example.laserAt (mkPoint 600 100)])
    by (vm_compute; reflexivity).
  assert (Ed : laserDir (update Example.leavingIntoMine) = []) by (vm_compute; reflexivity).
  split.
  - split; [reflexivity|]. split; [exact El|]. split; [exact Ed|].
    rewrite El, Ed. discriminate.
  - cbv zeta. split; [|split; [|split]]; vm_compute; reflexivity.
Qed.

(** ** Termination of the scans

    Every scan is run with the length of its group at entry as fuel.  No
    body adds a child to the group it scans, so the scan is over within
    that many iterations: more fuel gives the same state. *)

Section Termination.
Context `{Paper}.

Lemma starBody_stars_length (i : nat) (g : Game) :
  length (stars (starBody i g)) = length (stars g).
Proof.
  unfold starBody. destruct (stars g !! i); [|reflexivity].
  simpl. apply length_insert.
Qed.

Lemma explosionBody_explosions_le (i : nat) (g : Game) :
  (length (explosions (explosionBody i g)) <= length (explosions g))%nat.
Proof.
  unfold explosionBody. destruct (explosions g !! i) as [e|]; [|lia]. cbv zeta.
  destruct (gtb _ _); simpl.
  - etransitivity; [apply length_delete_le|]. rewrite length_insert. lia.
  - rewrite length_insert. lia.
Qed.

Lemma starPass_fuel (g : Game) (extra : nat) :
  forLoop (fun s => length (stars s)) starBody (length (stars g) + extra) 0 g = starPass g.
Proof.
  apply forLoop_fuel; [|lia]. intros i s. rewrite starBody_stars_length. lia.
Qed.

Lemma minePass_fuel (g : Game) (extra : nat) :
  forLoop (fun s => length (mines s)) mineBody (length (mines g) + extra) 0 g = minePass g.
Proof. apply forLoop_fuel; [apply mineBody_mines_le|lia]. Qed.

Lemma hitScan_fuel (i : nat) (cur : Item) (s : Scan) (extra : nat) :
  forLoop (fun s => length (mines (game s))) (hitBody i cur)
          (length (mines (game s)) + extra) 0 s = hitScan i cur s.
Proof. apply forLoop_fuel; [apply hitBody_mines_le|lia]. Qed.

Lemma laserPass_fuel (g : Game) (extra : nat) :
  forLoop (fun s => length (lasers s)) laserBody (length (lasers g) + extra) 0 g = laserPass g.
Proof. apply forLoop_fuel; [apply laserBody_lasers_le|lia]. Qed.

Lemma explosionPass_fuel (g : Game) (extra : nat) :
  forLoop (fun s => length (explosions s)) explosionBody
          (length (explosions g) + extra) 0 g = explosionPass g.
Proof. apply forLoop_fuel; [apply explosionBody_explosions_le|lia]. Qed.

(** ** The star scan moves and wraps every star *)

Lemma starLoop_stars :
  forall fuel i g,
    (length (stars g) - i <= fuel)%nat ->
    stars (forLoop (fun s => length (stars s)) starBody fuel i g)
    = take i (stars g) ++ map (moveStar g) (drop i (stars g)).
Proof.
  induction fuel as [|fuel IH]; intros i g Hfuel.
  - simpl. rewrite drop_ge by lia. rewrite take_ge by lia. rewrite app_nil_r. reflexivity.
  - simpl. destruct (Nat.ltb_spec i (length (stars g))) as [Hlt|Hge].
    + destruct (lookup_lt_is_Some_2 _ _ Hlt) as [si Hi].
      assert (Hb : starBody i g = setStars g (<[i := moveStar g si]> (stars g)))
        by (unfold starBody; rewrite Hi; reflexivity).
      rewrite IH by (rewrite starBody_stars_length; lia).
      rewrite Hb. simpl.
      replace (i + 1)%nat with (Datatypes.S i) by lia.
      rewrite (take_S_r _ _ (moveStar g si))
        by (apply list_lookup_insert_eq; exact Hlt).
      rewrite take_insert_ge by lia.
      rewrite drop_insert_lt by lia.
      rewrite (drop_S _ _ _ Hi). simpl.
      rewrite <- app_assoc. reflexivity.
    + rewrite drop_ge by lia. rewrite take_ge by lia. rewrite app_nil_r. reflexivity.
Qed.

Lemma update_stars (g : Game) : stars (update g) = map (moveStar g) (stars g).
Proof.
  unfold update, scans.
  destruct (capMines_frame (explosionPass (laserPass (minePass (starPass g)))))
    as [_ [_ [-> _]]].
  destruct (explosionPass_frame (laserPass (minePass (starPass g)))) as [_ [_ [-> _]]].
  destruct (laserPass_frame (minePass (starPass g))) as [_ [_ ->]].
  destruct (minePass_frame (starPass g)) as [_ [_ [-> _]]].
  unfold starPass. rewrite starLoop_stars by lia. reflexivity.
Qed.

End Termination.


(** * Further properties of the handlers *)

(** ** What [update] never creates *)

Section Monotone.
Context `{Paper}.

Lemma removeLaser_laserDir_le (i : nat) (s : Scan) :
  (length (laserDir (game (removeLaser i s))) <= length (laserDir (game s)))%nat.
Proof.
  unfold removeLaser, splice. destruct (attached s); simpl; apply length_delete_le.
Qed.

Lemma hitBody_laserDir_le (i : nat) (cur : Item) (j : nat) (s : Scan) :
  (length (laserDir (game (hitBody i cur j s))) <= length (laserDir (game s)))%nat.
Proof.
  unfold hitBody. destruct (mines (game s) !! j) as [mine|]; [|lia].
  destruct (hitTest cur (position mine)); [|lia].
  etransitivity; [apply removeLaser_laserDir_le|].
  simpl. rewrite (proj2 (removeMine_lasers j (game s))). lia.
Qed.

Lemma laserBody_laserDir_le (i : nat) (g : Game) :
  (length (laserDir (laserBody i g)) <= length (laserDir g))%nat.
Proof.
  unfold laserBody. destruct (lasers g !! i) as [l|]; [|lia]. cbv zeta.
  unfold hitScan.
  etransitivity;
    [apply (forLoop_le _ _ (fun s => length (laserDir (game s)))); apply hitBody_laserDir_le|].
  destruct (outOfBounds _); [|simpl; lia].
  etransitivity; [apply removeLaser_laserDir_le|]. simpl. lia.
Qed.

Lemma update_lasers_eq (g : Game) :
  lasers (update g) = lasers (laserPass (minePass (starPass g)))
  /\ laserDir (update g) = laserDir (laserPass (minePass (starPass g))).
Proof.
  unfold update, scans.
  destruct (capMines_frame (explosionPass (laserPass (minePass (starPass g)))))
    as [_ [_ [_ [-> ->]]]].
  destruct (explosionPass_frame (laserPass (minePass (starPass g))))
    as [_ [_ [_ [-> [-> _]]]]].
  split; reflexivity.
Qed.

Lemma before_laserPass (g : Game) :
  lasers (minePass (starPass g)) = lasers g
  /\ laserDir (minePass (starPass g)) = laserDir g.
Proof.
  destruct (minePass_frame (starPass g)) as [_ [_ [_ [-> ->]]]].
  destruct (starPass_frame g) as [_ [_ [_ [-> [-> _]]]]].
  split; reflexivity.
Qed.

Lemma capMines_mines_le (g : Game) :
  (length (mines (capMines g)) <= length (mines g))%nat.
Proof.
  unfold capMines. destruct (30 <? length (mines g))%nat; [apply removeMine_mines_le|lia].
Qed.

(** X3. [update] creates no laser, no direction, no mine and no star: the
    laser group, the direction list and the mine group never grow, and
    the number of stars stays the same. *)
Theorem update_creates_nothing (g : Game) :
  (length (lasers (update g)) <= length (lasers g))%nat
  /\ (length (laserDir (update g)) <= length (laserDir g))%nat
  /\ (length (mines (update g)) <= length (mines g))%nat
  /\ length (stars (update g)) = length (stars g).
Proof.
  destruct (update_lasers_eq g) as [El Ed].
  destruct (before_laserPass g) as [Bl Bd].
  split; [|split; [|split]].
  - rewrite El, <- Bl. unfold laserPass.
    apply (forLoop_le _ _ (fun s => length (lasers s))), laserBody_lasers_le.
  - rewrite Ed, <- Bd. unfold laserPass.
    apply (forLoop_le _ _ (fun s => length (laserDir s))), laserBody_laserDir_le.
  - unfold update. etransitivity; [apply capMines_mines_le|apply scans_mines_le].
  - rewrite update_stars. apply length_map.
Qed.

(** ** Mines and explosions *)

Lemma removeMine_total (j : nat) (g : Game) :
  (length (mines (removeMine j g)) + length (explosions (removeMine j g))
   = length (mines g) + length (explosions g))%nat.
Proof.
  unfold removeMine. destruct (mines g !! j) as [mine|] eqn:Hj; [|reflexivity].
  simpl. rewrite length_app. simpl. apply length_delete_lookup in Hj.
  unfold splice. lia.
Qed.

Lemma mineBody_total (i : nat) (g : Game) :
  (length (mines (mineBody i g)) + length (explosions (mineBody i g))
   = length (mines g) + length (explosions g))%nat.
Proof.
  unfold mineBody. destruct (mines g !! i) as [curMine|]; [|reflexivity]. cbv zeta.
  destruct (hitTest _ _).
  - rewrite removeMine_total. simpl. rewrite length_insert. reflexivity.
  - simpl. rewrite length_insert. reflexivity.
Qed.

Lemma hitBody_total (i : nat) (cur : Item) (j : nat) (s : Scan) :
  (length (mines (game (hitBody i cur j s))) + length (explosions (game (hitBody i cur j s)))
   = length (mines (game s)) + length (explosions (game s)))%nat.
Proof.
  unfold hitBody. destruct (mines (game s) !! j) as [mine|]; [|reflexivity].
  destruct (hitTest cur (position mine)); [|reflexivity].
  destruct (removeLaser_mines i (mkScan (removeMine j (game s)) (attached s))) as [-> ->].
  simpl. apply removeMine_total.
Qed.

Lemma laserBody_total (i : nat) (g : Game) :
  (length (mines (laserBody i g)) + length (explosions (laserBody i g))
   = length (mines g) + length (explosions g))%nat.
Proof.
  unfold laserBody. destruct (lasers g !! i) as [l|]; [|reflexivity]. cbv zeta.
  unfold hitScan.
  rewrite (forLoop_frame _ _
             (fun s => (length (mines (game s)) + length (explosions (game s)))%nat))
    by apply hitBody_total.
  destruct (outOfBounds _); [|reflexivity].
  destruct (removeLaser_mines i
              (mkScan (setLasers g (<[i := translate l (laserDirAt g i)]> (lasers g))) true))
    as [-> ->].
  reflexivity.
Qed.

(** X4. Through the mine scan and the laser scan every mine that disappears
    leaves exactly one explosion: the number of mines plus the number of
    explosions is unchanged, whatever the scans hit or skip. *)
Theorem scans_trade_mines_for_explosions (g : Game) :
  let g' := laserPass (minePass (starPass g)) in
  (length (mines g') + length (explosions g')
   = length (mines g) + length (explosions g))%nat.
Proof.
  cbv zeta. unfold laserPass.
  rewrite (forLoop_frame _ _
             (fun s => (length (mines s) + length (explosions s))%nat))
    by apply laserBody_total.
  unfold minePass.
  rewrite (forLoop_frame _ _
             (fun s => (length (mines s) + length (explosions s))%nat))
    by apply mineBody_total.
  destruct (starPass_frame g) as [_ [_ [-> [_ [_ ->]]]]]. reflexivity.
Qed.

End Monotone.

(** ** Explosions stay below the threshold *)

Section Explosions.
Context `{Paper}.

Lemma removeMine_bounded (j : nat) (g : Game) :
  explosionsBounded g -> explosionsBounded (removeMine j g).
Proof.
  unfold explosionsBounded, removeMine. intros Hg.
  destruct (mines g !! j) as [mine|]; [|exact Hg].
  simpl. apply Forall_app. split; [exact Hg|].
  apply Forall_singleton. simpl. discriminate.
Qed.

Lemma mineBody_bounded (i : nat) (g : Game) :
  explosionsBounded g -> explosionsBounded (mineBody i g).
Proof.
  intros Hg. unfold mineBody. destruct (mines g !! i) as [curMine|]; [|exact Hg].
  cbv zeta. destruct (hitTest _ _); [apply removeMine_bounded|]; exact Hg.
Qed.

Lemma hitBody_bounded (i : nat) (cur : Item) (j : nat) (s : Scan) :
  explosionsBounded (game s) -> explosionsBounded (game (hitBody i cur j s)).
Proof.
  intros Hg. unfold hitBody. destruct (mines (game s) !! j) as [mine|]; [|exact Hg].
  destruct (hitTest cur (position mine)); [|exact Hg].
  unfold explosionsBounded.
  rewrite (proj2 (removeLaser_mines i (mkScan (removeMine j (game s)) (attached s)))).
  apply removeMine_bounded. exact Hg.
Qed.

Lemma laserBody_bounded (i : nat) (g : Game) :
  explosionsBounded g -> explosionsBounded (laserBody i g).
Proof.
  intros Hg. unfold laserBody. destruct (lasers g !! i) as [l|]; [|exact Hg].
  cbv zeta. unfold hitScan.
  apply (forLoop_inv _ _ (fun s => explosionsBounded (game s))).
  - intros j s _. apply hitBody_bounded.
  - destruct (outOfBounds _); [|exact Hg].
    unfold explosionsBounded.
    rewrite (proj2 (removeLaser_mines i _)). exact Hg.
Qed.

Lemma explosionBody_bounded (i : nat) (g : Game) :
  explosionsBounded g -> explosionsBounded (explosionBody i g).
Proof.
  unfold explosionsBounded, explosionBody. intros Hg.
  destruct (explosions g !! i) as [e|]; [|exact Hg]. cbv zeta.
  destruct (gtb_spec (boundsWidth (scale e 1.3)) 100) as [Hwide|Hok]; simpl.
  - unfold splice. rewrite delete_insert_same. apply Forall_delete. exact Hg.
  - apply Forall_insert; [exact Hg|exact Hok].
Qed.

Lemma update_bounded (g : Game) :
  explosionsBounded g -> explosionsBounded (update g).
Proof.
  intros Hg. unfold update, capMines, scans.
  assert (Hscans : explosionsBounded (explosionPass (laserPass (minePass (starPass g))))).
  { unfold explosionPass. apply forLoop_inv; [intros i s _; apply explosionBody_bounded|].
    unfold laserPass. apply forLoop_inv; [intros i s _; apply laserBody_bounded|].
    unfold minePass. apply forLoop_inv; [intros i s _; apply mineBody_bounded|].
    unfold explosionsBounded. destruct (starPass_frame g) as [_ [_ [_ [_ [_ ->]]]]].
    exact Hg. }
  destruct (30 <? _)%nat; [apply removeMine_bounded|]; exact Hscans.
Qed.

(** X5. Between frames no explosion is wider than 100: the bound holds after
    every sequence of frames, mouse moves, shots and spawns that starts
    from a state where it holds, such as the start of the game. *)
Theorem explosions_never_wider_than_100 (es : list Event) (g : Game) :
  explosionsBounded g -> explosionsBounded (run es g).
Proof.
  revert g. induction es as [|e es IH]; intros g Hg; [exact Hg|].
  simpl. apply IH. destruct e; simpl; [apply update_bounded| | |]; exact Hg.
Qed.

End Explosions.

Lemma explosions_never_wider_than_100_witness :
  explosionsBounded Example.started
  /\ explosionsBounded (run (Example.shootIntoSpawn ++ [Frame]) Example.started)
  /\ length (explosions (run (Example.shootIntoSpawn ++ [Frame]) Example.started)) = 1%nat.
Proof.
  assert (H0 : explosionsBounded Example.started) by (apply Forall_nil; exact I).
  split; [exact H0|]. split.
  - apply (explosions_never_wider_than_100 (Example.shootIntoSpawn ++ [Frame])
             Example.started H0).
  - vm_compute. reflexivity.
Defined.

(** ** Directions never outnumber lasers *)

Section Covered.
Context `{Paper}.

Lemma removeLaser_covered (i : nat) (s : Scan) :
  covered (game s) ->
  (attached s = true -> (i < length (lasers (game s)))%nat) ->
  covered (game (removeLaser i s)).
Proof.
  unfold covered, removeLaser, splice. intros Hc Hi.
  destruct (attached s); simpl.
  - specialize (Hi eq_refl).
    destruct (lookup_lt_is_Some_2 _ _ Hi) as [l Hl].
    apply length_delete_lookup in Hl.
    destruct (laserDir (game s) !! i) as [d|] eqn:Hd.
    + apply length_delete_lookup in Hd. lia.
    + apply lookup_ge_None in Hd. rewrite delete_ge by exact Hd. lia.
  - pose proof (length_delete_le (laserDir (game s)) i). lia.
Qed.

Lemma hitBody_covered (i : nat) (cur : Item) (j : nat) (s : Scan) :
  covered (game s) /\ (attached s = true -> (i < length (lasers (game s)))%nat) ->
  covered (game (hitBody i cur j s))
  /\ (attached (hitBody i cur j s) = true ->
      (i < length (lasers (game (hitBody i cur j s))))%nat).
Proof.
  intros [Hc Hi]. unfold hitBody.
  destruct (mines (game s) !! j) as [mine|]; [|split; assumption].
  destruct (hitTest cur (position mine)); [|split; assumption].
  split; [|discriminate].
  destruct (removeMine_lasers j (game s)) as [El Ed].
  apply removeLaser_covered; unfold covered; simpl; rewrite ?El, ?Ed; assumption.
Qed.

Lemma laserBody_covered (i : nat) (g : Game) : covered g -> covered (laserBody i g).
Proof.
  intros Hc. unfold laserBody. destruct (lasers g !! i) as [l|] eqn:Hi; [|exact Hc].
  cbv zeta. unfold hitScan.
  apply lookup_lt_Some in Hi.
  apply (forLoop_inv _ _
           (fun s => covered (game s)
                     /\ (attached s = true -> (i < length (lasers (game s)))%nat))).
  - intros j s _. apply hitBody_covered.
  - destruct (outOfBounds _).
    + split; [|discriminate].
      apply removeLaser_covered; unfold covered; simpl; rewrite length_insert;
        [exact Hc|intros _; exact Hi].
    + split; [|intros _]; unfold covered; simpl; rewrite length_insert; assumption.
Qed.

Lemma update_covered (g : Game) : covered g -> covered (update g).
Proof.
  intros Hc. unfold covered.
  destruct (update_lasers_eq g) as [-> ->].
  assert (Hb : covered (minePass (starPass g))).
  { unfold covered. destruct (before_laserPass g) as [-> ->]. exact Hc. }
  unfold laserPass. apply (forLoop_inv _ _ covered); [|exact Hb].
  intros i s _. apply laserBody_covered.
Qed.

(** X2. The direction list is never longer than the laser group: the bound
    holds after every sequence of frames, mouse moves, shots and spawns
    that starts from a state where it holds.  Reading [laserDir[i]] for a
    laser can thus find nothing, but no direction is ever left without a
    laser at its index. *)
Theorem directions_never_outnumber_lasers (es : list Event) (g : Game) :
  covered g -> covered (run es g).
Proof.
  revert g. induction es as [|e es IH]; intros g Hg; [exact Hg|].
  simpl. apply IH. destruct e; simpl.
  - apply update_covered. exact Hg.
  - exact Hg.
  - unfold covered in *. simpl. rewrite !length_app. simpl. lia.
  - exact Hg.
Qed.

End Covered.

Lemma directions_never_outnumber_lasers_witness :
  covered Example.started
  /\ covered (run (Example.shootIntoSpawn ++ [Frame]) Example.started).
Proof.
  assert (H0 : covered Example.started) by (unfold covered; simpl; lia).
  split; [exact H0|].
  apply (directions_never_outnumber_lasers (Example.shootIntoSpawn ++ [Frame])
           Example.started H0).
Defined.

(** ** Alignment when no laser hits a mine *)

Section Alignment.
Context `{Paper}.

Lemma laserBody_keeps_pairs (g g' : Game) (i : nat) :
  hitFree g -> (i < length (lasers g'))%nat ->
  aligned g' -> mines g' = mines g -> explosions g' = explosions g -> pairsFrom g i g' ->
  aligned (laserBody i g') /\ mines (laserBody i g') = mines g
  /\ explosions (laserBody i g') = explosions g /\ pairsFrom g (i + 1) (laserBody i g').
Proof.
  intros Hfree Hlt Hal Hm He Hp.
  destruct (lookup_lt_is_Some_2 _ _ Hlt) as [li Hli].
  assert (Hltd : (i < length (laserDir g'))%nat) by (unfold aligned in Hal; lia).
  destruct (lookup_lt_is_Some_2 _ _ Hltd) as [di Hdi].
  destruct (Hp i li di Hli Hdi) as [k0 [l [Hk0 [Hd0 [->|[Hii _]]]]]]; [|lia].
  assert (Hat : laserDirAt g' i = di) by (unfold laserDirAt; rewrite Hdi; reflexivity).
  rewrite (laserBody_no_hit i g' l Hli)
    by (intros mine Hin; rewrite Hat; rewrite Hm in Hin; apply (Hfree k0 l di mine Hk0 Hd0 Hin)).
  rewrite Hat. destruct (outOfBounds (position (translate l di))).
  - split; [|split; [exact Hm|split; [exact He|]]].
    + unfold aligned in *. simpl.
      apply length_delete_lookup in Hli. apply length_delete_lookup in Hdi. lia.
    + intros k l' d Hl' Hd'. simpl in Hl', Hd'.
      destruct (Nat.lt_ge_cases k i) as [Hk|Hk].
      * rewrite list_lookup_delete_lt in Hl' by exact Hk.
        rewrite list_lookup_delete_lt in Hd' by exact Hk.
        destruct (Hp k l' d Hl' Hd') as [k1 [l1 [H1 [H2 [H3|[H3 H4]]]]]];
          exists k1, l1; (split; [exact H1|split; [exact H2|]]); [left; exact H3|].
        right. split; [lia|exact H4].
      * rewrite list_lookup_delete_ge in Hl' by exact Hk.
        rewrite list_lookup_delete_ge in Hd' by exact Hk.
        destruct (Hp (Datatypes.S k) l' d Hl' Hd') as [k1 [l1 [H1 [H2 [H3|[H3 _]]]]]]; [|lia].
        exists k1, l1. split; [exact H1|split; [exact H2|left; exact H3]].
  - split; [|split; [exact Hm|split; [exact He|]]].
    + unfold aligned in *. simpl. rewrite length_insert. exact Hal.
    + intros k l' d Hl' Hd'. simpl in Hl', Hd'.
      destruct (decide (k = i)) as [->|Hne].
      * rewrite list_lookup_insert_eq in Hl' by exact Hlt.
        assert (d = di) by congruence. subst d.
        exists k0, l. split; [exact Hk0|split; [exact Hd0|]].
        right. split; [lia|congruence].
      * rewrite list_lookup_insert_ne in Hl' by congruence.
        destruct (Hp k l' d Hl' Hd') as [k1 [l1 [H1 [H2 [H3|[H3 H4]]]]]];
          exists k1, l1; (split; [exact H1|split; [exact H2|]]); [left; exact H3|].
        right. split; [lia|exact H4].
Qed.

Lemma laserLoop_keeps_pairs (g : Game) :
  hitFree g ->
  forall fuel i g',
    aligned g' -> mines g' = mines g -> explosions g' = explosions g -> pairsFrom g i g' ->
    let g'' := forLoop (fun s => length (lasers s)) laserBody fuel i g' in
    aligned g'' /\ mines g'' = mines g /\ explosions g'' = explosions g
    /\ pairsFrom g (i + fuel) g''.
Proof.
  intros Hfree. induction fuel as [|fuel IH]; intros i g' Hal Hm He Hp; simpl.
  - replace (i + 0)%nat with i by lia. repeat split; assumption.
  - destruct (Nat.ltb_spec i (length (lasers g'))) as [Hlt|Hge].
    + destruct (laserBody_keeps_pairs g g' i Hfree Hlt Hal Hm He Hp) as [A [B [C D]]].
      replace (i + Datatypes.S fuel)%nat with ((i + 1) + fuel)%nat by lia.
      apply IH; assumption.
    + split; [exact Hal|split; [exact Hm|split; [exact He|]]].
      intros k l' d Hl' Hd'.
      destruct (Hp k l' d Hl' Hd') as [k1 [l1 [H1 [H2 [H3|[H3 H4]]]]]];
        exists k1, l1; (split; [exact H1|split; [exact H2|]]); [left; exact H3|].
      right. split; [lia|exact H4].
Qed.

(** X1. In a frame in which no laser's new position hits a mine, the laser
    scan keeps the laser group and the direction list aligned: a laser
    that leaves takes exactly the direction at its index with it, every
    laser that remains still has its own direction at its index, and it
    is either moved by that direction or (when skipped) not moved at all.
    Mines and explosions are untouched by the scan. *)
Theorem update_keeps_alignment_without_hit (g : Game) :
  aligned g -> hitFree (minePass (starPass g)) ->
  aligned (update g)
  /\ (forall k l' d,
        lasers (update g) !! k = Some l' -> laserDir (update g) !! k = Some d ->
        exists k0 l, lasers g !! k0 = Some l /\ laserDir g !! k0 = Some d
          /\ (l' = l \/ l' = translate l d))
  /\ mines (laserPass (minePass (starPass g))) = mines (minePass (starPass g))
  /\ explosions (laserPass (minePass (starPass g))) = explosions (minePass (starPass g)).
Proof.
  intros Hal Hfree. set (g2 := minePass (starPass g)) in *.
  destruct (before_laserPass g) as [Bl Bd]. fold g2 in Bl, Bd.
  destruct (update_lasers_eq g) as [El Ed]. fold g2 in El, Ed.
  destruct (laserLoop_keeps_pairs g2 Hfree (length (lasers g2)) 0 g2) as [A [B [C D]]].
  - unfold aligned. rewrite Bl, Bd. exact Hal.
  - reflexivity.
  - reflexivity.
  - intros k l' d Hl' Hd'. exists k, l'. split; [exact Hl'|split; [exact Hd'|left; reflexivity]].
  - fold (laserPass g2) in A, B, C, D.
    split; [unfold aligned; rewrite El, Ed; exact A|].
    split; [|split; [exact B|exact C]].
    intros k l' d Hl' Hd'. rewrite El in Hl'. rewrite Ed in Hd'.
    destruct (D k l' d Hl' Hd') as [k1 [l1 [H1 [H2 H3]]]].
    rewrite Bl in H1. rewrite Bd in H2.
    exists k1, l1. split; [exact H1|split; [exact H2|]].
    destruct H3 as [H3|[_ H3]]; [left|right]; exact H3.
Qed.

End Alignment.

Lemma update_keeps_alignment_without_hit_witness :
  aligned Sample.leavingFarFromMine
  /\ aligned (update Sample.leavingFarFromMine)
  /\ length (lasers (update Sample.leavingFarFromMine)) = 1%nat.
Proof.
  assert (Hal : aligned Sample.leavingFarFromMine) by reflexivity.
  assert (Hfree : hitFree (minePass (starPass Sample.leavingFarFromMine))).
  { intros k l d mine Hl Hd Hin.
    destruct (before_laserPass Sample.leavingFarFromMine) as [Bl Bd].
    rewrite Bl in Hl. rewrite Bd in Hd.
    eassert (Em : mines (minePass (starPass Sample.leavingFarFromMine)) = _)
      by (vm_compute; reflexivity).
    rewrite Em in Hin. apply list_elem_of_singleton in Hin. subst mine.
    clear Em Bl Bd.
    destruct k as [|[|k]]; [| |discriminate Hl];
      injection Hl as <-; injection Hd as <-; vm_compute; reflexivity. }
  split; [exact Hal|]. split.
  - apply (update_keeps_alignment_without_hit Sample.leavingFarFromMine Hal Hfree).
  - vm_compute. reflexivity.
Defined.

(** ** Stars *)

Lemma width_pos : 0 < width.
Proof. reflexivity. Qed.

Lemma height_pos : 0 < height.
Proof. reflexivity. Qed.

Lemma wrapStar_keeps_shape (s : Item) :
  boundsWidth (wrapStar s) = boundsWidth s /\ rotation (wrapStar s) = rotation s
  /\ definition (wrapStar s) = definition s.
Proof.
  unfold wrapStar. cbv zeta.
  destruct (ltb (x (position (setX s _))) 0);
    destruct (ltb (y (position (setY _ _))) 0); repeat split.
Qed.

(** X7. One [update] keeps every star: the star at index [k] is still at
    index [k], with the same size and rotation, and its position is inside
    the play area, edges included. *)
Theorem update_keeps_stars_in_area `{Paper} (g : Game) (k : nat) (s : Item) :
  stars g !! k = Some s ->
  length (stars (update g)) = length (stars g)
  /\ exists s', stars (update g) !! k = Some s'
       /\ inClosedArea (position s')
       /\ boundsWidth s' = boundsWidth s /\ rotation s' = rotation s
       /\ definition s' = definition s.
Proof.
  intros Hk. rewrite update_stars. split; [apply length_map|].
  exists (moveStar g s). split; [rewrite list_lookup_fmap, Hk; reflexivity|].
  unfold moveStar. cbv zeta. split.
  - rewrite wrapStar_position. unfold inClosedArea. simpl. split.
    + apply (wrapCoord_range _ width width_pos).
    + apply (wrapCoord_range _ height height_pos).
  - destruct (wrapStar_keeps_shape
                (translate s (Point.multiply (mouseVector g)
                                (-0.001 * mouseSensetivity * boundsWidth s))))
      as [-> [-> ->]].
    repeat split.
Qed.

Lemma update_keeps_stars_in_area_witness :
  length (stars (update Sample.oneStar)) = 1%nat
  /\ exists s', stars (update Sample.oneStar) !! 0%nat = Some s'
       /\ inClosedArea (position s') /\ boundsWidth s' = 2.
Proof.
  destruct (update_keeps_stars_in_area Sample.oneStar 0 Sample.star eq_refl)
    as [Hlen [s' [Hs' [Harea [Hw _]]]]].
  split; [exact Hlen|]. exists s'. split; [exact Hs'|]. split; [exact Harea|exact Hw].
Defined.

(** A coordinate already in [[0, bound)] is its own remainder. *)
Lemma jsmod_small (v bound : Q) : 0 <= v < bound -> jsmod v bound == v.
Proof.
  intros [Hlo Hhi]. assert (Hb : 0 < bound) by lra.
  unfold jsmod, trunc.
  assert (Hq0 : 0 <= v / bound) by (apply Qle_shift_div_l; [exact Hb|lra]).
  assert (Hq1 : v / bound < 1) by (apply Qlt_shift_div_r; [exact Hb|lra]).
  destruct (ltb_spec (v / bound) 0) as [Hneg|_]; [lra|].
  pose proof (Qfloor_le (v / bound)) as Hf1.
  pose proof (Qlt_floor (v / bound)) as Hf2.
  assert (Hz : Qfloor (v / bound) = 0%Z).
  { assert (H1 : (Qfloor (v / bound) < 1)%Z).
    { rewrite Zlt_Qlt. change (inject_Z 1) with 1. lra. }
    assert (H2 : (0 < Qfloor (v / bound) + 1)%Z).
    { rewrite Zlt_Qlt. change (inject_Z 0) with 0. lra. }
    lia. }
  rewrite Hz. change (inject_Z 0) with 0. ring.
Qed.

Lemma wrapCoord_small (v bound : Q) : 0 <= v < bound -> wrapCoord v bound == v.
Proof.
  intros Hv. pose proof (jsmod_small v bound Hv) as Hm.
  unfold wrapCoord. cbv zeta.
  destruct (ltb_spec (jsmod v bound) 0) as [Hneg|_]; [lra|exact Hm].
Qed.

(** X8. With the mouse at the centre of the view, a star inside the play
    area stays where it is. *)
Theorem star_rests_with_mouse_at_centre (g : Game) (s : Item) :
  Point.eq (mouseVector g) Point.zero -> inPlayArea (position s) ->
  Point.eq (position (moveStar g s)) (position s).
Proof.
  intros [Hmx Hmy] [Hx Hy]. unfold moveStar. cbv zeta.
  rewrite wrapStar_position. unfold Point.eq. simpl in *. split.
  - rewrite <- (wrapCoord_small (x (position s)) width Hx) at 2.
    apply wrapCoord_comp. rewrite Hmx. ring.
  - rewrite <- (wrapCoord_small (y (position s)) height Hy) at 2.
    apply wrapCoord_comp. rewrite Hmy. ring.
Qed.

Lemma star_rests_with_mouse_at_centre_witness :
  Point.eq (position (moveStar Sample.oneStar Sample.star)) (mkPoint 300 200).
Proof.
  apply (star_rests_with_mouse_at_centre Sample.oneStar Sample.star).
  - split; reflexivity.
  - split; split; try discriminate; reflexivity.
Defined.

(** ** Scene creation *)

Section Scene.
Context `{Paper}.

Lemma placeStars_length (rnd : nat -> Q) (n i : nat) (group : list Item) :
  length (placeStars rnd n i group) = (length group + n)%nat.
Proof.
  revert i group. induction n as [|n IH]; intros i group; simpl; [lia|].
  rewrite IH, length_app. simpl. lia.
Qed.

Lemma placeStars_Forall (P : Item -> Prop) (rnd : nat -> Q) (n i : nat) (group : list Item) :
  (forall j, P (createStar rnd j)) -> Forall P group -> Forall P (placeStars rnd n i group).
Proof.
  intros Hnew. revert i group. induction n as [|n IH]; intros i group Hg; simpl; [exact Hg|].
  apply IH. apply Forall_app. split; [exact Hg|]. apply Forall_singleton, Hnew.
Qed.

(** X9. [createScene] places [numStars] = 150 stars; with draws in [[0, 1)]
    every one of them is inside the play area and its width is in
    [[0, 4)]. *)
Theorem createStars_in_play_area (rnd : nat -> Q) :
  (forall n, 0 <= rnd n < 1) ->
  length (createStars rnd) = 150%nat
  /\ Forall (fun s => inPlayArea (position s) /\ 0 <= boundsWidth s < 4
                      /\ definition s = starSymbol) (createStars rnd).
Proof.
  intros Hrnd. unfold createStars. split; [rewrite placeStars_length; reflexivity|].
  apply placeStars_Forall; [|apply Forall_nil; exact I].
  intros j. unfold createStar, inPlayArea, pointRandom, width, height. simpl.
  pose proof (Hrnd (3 * j)%nat) as H0.
  pose proof (Hrnd (3 * j + 1)%nat) as H1.
  pose proof (Hrnd (3 * j + 2)%nat) as H2.
  simpl in H0, H1, H2. repeat split; lra.
Qed.

End Scene.

Lemma createStars_in_play_area_witness :
  length (createStars Sample.halves) = 150%nat
  /\ Forall (fun s => inPlayArea (position s) /\ 0 <= boundsWidth s < 4
                      /\ definition s = starSymbol) (createStars Sample.halves).
Proof.
  apply (createStars_in_play_area Sample.halves).
  intros n. split; [discriminate|reflexivity].
Defined.

(** ** Resizing *)

(** X10. For a view of positive height, [resize] picks the larger of the two
    scale factors: the zoomed play area is at least as wide and as high
    as the view and fits it exactly in one dimension.  The view is
    centred on the middle of the play area, where the ship is placed and
    the mines home to. *)
Theorem resize_covers_view (viewW viewH : Q) :
  0 < viewH ->
  let v := resize viewW viewH in
  viewW <= zoom v * width /\ viewH <= zoom v * height
  /\ (zoom v * width == viewW \/ zoom v * height == viewH)
  /\ center v = viewCenter.
Proof.
  intros Hh. cbv zeta. unfold resize. cbv zeta. simpl zoom. simpl center.
  assert (Ew : viewW == viewW / viewH * viewH) by (field; lra).
  destruct (gtb_spec (viewW / viewH) (width / height)) as [Hwide|Hnarrow];
    unfold width, height in *.
  - assert (Hm : 1200 / 800 * viewH < viewW / viewH * viewH)
      by (apply Qmult_lt_r; assumption).
    rewrite <- Ew in Hm.
    assert (E1 : viewW / 1200 * 1200 == viewW) by field.
    assert (E2 : viewW / 1200 * 800 == viewW * (2 # 3)) by field.
    assert (Ec : 1200 / 800 == 3 # 2) by reflexivity.
    rewrite Ec in Hm. clear Ew Hwide Ec.
    rewrite E1, E2. clear E1 E2.
    split; [lra|]. split; [lra|]. split; [left|]; reflexivity.
  - assert (Hm : viewW / viewH * viewH <= 1200 / 800 * viewH)
      by (apply Qmult_le_r; assumption).
    rewrite <- Ew in Hm.
    assert (E1 : viewH / 800 * 1200 == viewH * (3 # 2)) by field.
    assert (E2 : viewH / 800 * 800 == viewH) by field.
    assert (Ec : 1200 / 800 == 3 # 2) by reflexivity.
    rewrite Ec in Hm. clear Ew Hnarrow Ec.
    rewrite E1, E2. clear E1 E2.
    split; [lra|]. split; [lra|]. split; [right|]; reflexivity.
Qed.

Lemma resize_covers_view_witness :
  1920 <= zoom (resize 1920 1080) * width /\ 1080 <= zoom (resize 1920 1080) * height.
Proof.
  assert (Hh : 0 < 1080) by reflexivity.
  destruct (resize_covers_view 1920 1080 Hh) as [Hw [Hv _]].
  split; [exact Hw|exact Hv].
Defined.

(** ** The mine count along play *)

Section MineCount.
Context `{Paper}.

Lemma update_mines_le_30 (g : Game) :
  (length (mines g) <= 31)%nat -> (length (mines (update g)) <= 30)%nat.
Proof.
  intros H31. pose proof (scans_mines_le g) as Hle. unfold update, capMines.
  destruct (Nat.ltb_spec 30 (length (mines (scans g)))) as [Hover|Hok]; [|lia].
  destruct (mines (scans g)) as [|oldest rest] eqn:Hm; [simpl in Hover; lia|].
  rewrite (removeMine_some 0 (scans g) oldest) by (rewrite Hm; reflexivity).
  simpl. rewrite Hm. simpl in *. lia.
Qed.

Lemma run_mines_spaced (es : list Event) :
  forall (pending : bool) (g : Game),
    (length (mines g) <= 30 + (if pending then 1 else 0))%nat ->
    spaced pending es ->
    (length (mines (run es g)) <= 31)%nat
    /\ (forall es', es = es' ++ [Frame] -> (length (mines (run es g)) <= 30)%nat).
Proof.
  induction es as [|e es IH]; intros pending g Hg Hsp.
  - simpl. split; [destruct pending; lia|].
    intros es' E. destruct es'; discriminate E.
  - assert (Hstep : exists pending' : bool,
               (length (mines (step e g)) <= 30 + (if pending' then 1 else 0))%nat
               /\ spaced pending' es).
    { destruct e as [|p| |r0 r1 r2]; simpl in Hsp.
      - exists false. split; [|exact Hsp].
        assert ((length (mines (update g)) <= 30)%nat)
          by (apply update_mines_le_30; destruct pending; lia).
        simpl. lia.
      - exists pending. split; [exact Hg|exact Hsp].
      - exists pending. split; [exact Hg|exact Hsp].
      - destruct Hsp as [-> Hsp]. exists true. split; [|exact Hsp].
        simpl. rewrite length_app. simpl in *. lia. }
    destruct Hstep as [pending' [Hg' Hsp']].
    destruct (IH pending' (step e g) Hg' Hsp') as [H31 H30].
    simpl. split; [exact H31|].
    intros es' E. destruct es' as [|e' es'].
    + simpl in E. injection E as -> ->. simpl.
      apply update_mines_le_30. destruct pending; lia.
    + simpl in E. injection E as -> ->. apply (H30 es'). reflexivity.
Qed.

(** X11. When at most one mine is spawned between two frames, the cap holds
    along play: from a state with at most 30 mines there are never more
    than 31 mines, and at most 30 right after every frame. *)
Theorem mine_count_bounded_when_spawns_are_spaced (es : list Event) (g : Game) :
  (length (mines g) <= 30)%nat -> spaced false es ->
  (length (mines (run es g)) <= 31)%nat
  /\ (forall es', es = es' ++ [Frame] -> (length (mines (run es g)) <= 30)%nat).
Proof.
  intros Hg Hsp. apply (run_mines_spaced es false g); [simpl; lia|exact Hsp].
Qed.

End MineCount.

Lemma mine_count_bounded_when_spawns_are_spaced_witness :
  (length (mines (run Sample.spawnFrame (Example.manyMines 30))) <= 30)%nat.
Proof.
  assert (H30 : (length (mines (Example.manyMines 30)) <= 30)%nat) by (vm_compute; lia).
  assert (Hsp : spaced false Sample.spawnFrame) by (simpl; repeat split).
  destruct (mine_count_bounded_when_spawns_are_spaced Sample.spawnFrame
              (Example.manyMines 30) H30 Hsp) as [_ Hframe].
  apply (Hframe [Spawn 0 (1 # 2) (1 # 2); Frame; MouseDown; Spawn 0 (1 # 2) (1 # 2)]).
  reflexivity.
Defined.

(** ** The mine scan without contact *)

Section MineScan.
Context `{Paper}.

Lemma moveMine_mouse (g g' : Game) (m : Item) :
  mouseVector g' = mouseVector g -> moveMine g' m = moveMine g m.
Proof. intros E. unfold moveMine. rewrite E. reflexivity. Qed.

Lemma mineLoop_without_contact (g : Game) :
  forall fuel i g',
    mouseVector g' = mouseVector g -> ship g' = ship g ->
    (forall m, m ∈ drop i (mines g') ->
               hitTest (moveMine g m) (position (ship g)) = false) ->
    (length (mines g') - i <= fuel)%nat ->
    let g'' := forLoop (fun s => length (mines s)) mineBody fuel i g' in
    mines g'' = take i (mines g') ++ map (moveMine g) (drop i (mines g'))
    /\ explosions g'' = explosions g'.
Proof.
  induction fuel as [|fuel IH]; intros i g' Hmv Hship Hfree Hfuel; simpl.
  - rewrite drop_ge by lia. rewrite take_ge by lia. rewrite app_nil_r. split; reflexivity.
  - destruct (Nat.ltb_spec i (length (mines g'))) as [Hlt|Hge].
    + destruct (lookup_lt_is_Some_2 _ _ Hlt) as [mi Hi].
      assert (Hin : mi ∈ drop i (mines g')).
      { rewrite (drop_S _ _ _ Hi). apply elem_of_cons. left. reflexivity. }
      assert (Hb : mineBody i g' = setMines g' (<[i := moveMine g mi]> (mines g'))).
      { rewrite (mineBody_some i g' mi Hi). cbv zeta.
        rewrite (moveMine_mouse g g' mi Hmv), Hship, (Hfree mi Hin). reflexivity. }
      rewrite Hb.
      destruct (IH (i + 1)%nat (setMines g' (<[i := moveMine g mi]> (mines g'))))
        as [IHm IHe].
      * exact Hmv.
      * exact Hship.
      * intros m Hm. simpl in Hm. apply Hfree.
        replace (i + 1)%nat with (Datatypes.S i) in Hm by lia.
        rewrite drop_insert_lt in Hm by lia.
        rewrite (drop_S _ _ _ Hi). apply elem_of_cons. right. exact Hm.
      * simpl. rewrite length_insert. lia.
      * split; [|exact IHe]. rewrite IHm. simpl.
        replace (i + 1)%nat with (Datatypes.S i) by lia.
        rewrite (take_S_r _ _ (moveMine g mi))
          by (apply list_lookup_insert_eq; exact Hlt).
        rewrite take_insert_ge by lia.
        rewrite drop_insert_lt by lia.
        rewrite (drop_S _ _ _ Hi). simpl.
        rewrite <- app_assoc. reflexivity.
    + rewrite drop_ge by lia. rewrite take_ge by lia. rewrite app_nil_r. split; reflexivity.
Qed.

(** X12. When no mine, once moved, touches the ship, the mine scan moves every
    mine (homing, drift, one degree of rotation), removes none and
    creates no explosion. *)
Theorem minePass_without_contact (g : Game) :
  contactFree g ->
  mines (minePass g) = map (moveMine g) (mines g)
  /\ explosions (minePass g) = explosions g
  /\ (forall k m, mines g !! k = Some m ->
        exists m', mines (minePass g) !! k = Some m' /\ rotation m' = rotation m + 1).
Proof.
  intros Hfree.
  destruct (mineLoop_without_contact g (length (mines g)) 0 g) as [Hm He];
    [reflexivity|reflexivity| |lia|].
  - intros m Hm. apply Hfree. exact Hm.
  - assert (Hm' : mines (minePass g) = map (moveMine g) (mines g)) by exact Hm.
    split; [exact Hm'|]. split; [exact He|].
    intros k m Hk. exists (moveMine g m). split; [|reflexivity].
    rewrite Hm', list_lookup_fmap, Hk. reflexivity.
Qed.

End MineScan.

Lemma minePass_without_contact_witness :
  length (mines (minePass (Example.manyMines 3))) = 3%nat
  /\ explosions (minePass (Example.manyMines 3)) = [].
Proof.
  assert (Hfree : contactFree (Example.manyMines 3)).
  { intros m Hm. simpl in Hm.
    repeat (apply elem_of_cons in Hm; destruct Hm as [->|Hm]; [vm_compute; reflexivity|]).
    apply elem_of_nil in Hm. contradiction. }
  destruct (minePass_without_contact (Example.manyMines 3) Hfree) as [Hm [He _]].
  split; [rewrite Hm; reflexivity|exact He].
Defined.

(** ** The ship follows the mouse *)

(** X15. Once the mouse has moved, the ship's rotation is the aim angle plus
    90 after every later sequence of frames, shots, spawns and mouse
    moves, and a laser fired then is rotated by the aim angle, 90 short of
    the ship, and starts at the ship's position. *)
Theorem ship_faces_aim_after_mouse_move `{Paper} (es : list Event) (p : Point) (g : Game) :
  let g' := run es (onMouseMove p g) in
  rotation (ship g') = angle (mouseVector g') + 90
  /\ exists newLaser,
       lasers (onMouseDown g') = lasers g' ++ [newLaser]
       /\ rotation (ship g') = rotation newLaser + 90
       /\ position newLaser = position (ship g).
Proof.
  cbv zeta.
  assert (Hinv : forall es g0, rotation (ship g0) = angle (mouseVector g0) + 90 ->
            rotation (ship (run es g0)) = angle (mouseVector (run es g0)) + 90).
  { clear es. induction es as [|e es IH]; intros g0 H0; [exact H0|].
    simpl. apply IH. destruct e; simpl; try exact H0; try reflexivity.
    rewrite update_ship, update_mouseVector. exact H0. }
  assert (Hrot : rotation (ship (run es (onMouseMove p g)))
                 = angle (mouseVector (run es (onMouseMove p g))) + 90)
    by (apply Hinv; reflexivity).
  split; [exact Hrot|].
  eexists. split; [reflexivity|]. split; [exact Hrot|].
  simpl. rewrite run_ship_position. reflexivity.
Qed.

(** ** Contact with the ship *)

(** X13. When the first of two mines touches the ship after its move, it is
    destroyed with an explosion at its new position, and the second mine
    takes index 0 and is skipped by the scan: it is neither moved nor
    tested in this frame, wherever it is. *)
Theorem minePass_skips_after_contact `{Paper} (g : Game) (m0 m1 : Item) :
  mines g = [m0; m1] ->
  hitTest (moveMine g m0) (position (ship g)) = true ->
  mines (minePass g) = [m1]
  /\ explosions (minePass g)
     = explosions g ++ [place explosionSymbol (position (moveMine g m0))].
Proof.
  intros Hm Hhit. unfold minePass. rewrite Hm. simpl.
  rewrite Hm. simpl.
  rewrite (mineBody_some 0 g m0) by (rewrite Hm; reflexivity).
  cbv zeta. rewrite Hhit, Hm. simpl. split; reflexivity.
Qed.

Lemma minePass_skips_after_contact_witness :
  mines (minePass Sample.mineOnShip) = [Example.mineAt (mkPoint 100 100)]
  /\ length (explosions (minePass Sample.mineOnShip)) = 1%nat.
Proof.
  destruct (minePass_skips_after_contact Sample.mineOnShip
              (Example.mineAt (mkPoint 600 400)) (Example.mineAt (mkPoint 100 100)))
    as [Hm He]; [reflexivity|vm_compute; reflexivity|].
  split; [exact Hm|rewrite He; reflexivity].
Defined.

(** ** Homing *)

(** X14. With the mouse at the centre of the view, and a library whose
    [normalize] scales the vector to the centre by a factor [k], the move
    of a mine scales its offset from the centre by [1 - k]: the mine stays
    on the line to the centre, where the ship is, and comes closer
    whenever [0 < k < 2].  The move also turns the mine by one degree. *)
Theorem mine_homes_toward_centre `{Paper} (g : Game) (m : Item) (k : Q) :
  Point.eq (mouseVector g) Point.zero ->
  Point.eq (normalize (Point.subtract viewCenter (position m)) 3)
           (Point.multiply (Point.subtract viewCenter (position m)) k) ->
  Point.eq (Point.subtract (position (moveMine g m)) viewCenter)
           (Point.multiply (Point.subtract (position m) viewCenter) (1 - k))
  /\ rotation (moveMine g m) = rotation m + 1.
Proof.
  intros [Hmx Hmy] [Hnx Hny]. split; [|reflexivity].
  unfold Point.eq, moveMine in *. simpl in *.
  rewrite Hnx, Hny, Hmx, Hmy. split; ring.
Qed.

Lemma mine_homes_toward_centre_witness :
  Point.eq (Point.subtract (position (moveMine Sample.oneStar Sample.farMine)) viewCenter)
           (Point.multiply (mkPoint 300 400) (1 - (3 # 500))).
Proof.
  destruct (mine_homes_toward_centre Sample.oneStar Sample.farMine (3 # 500)) as [Hp _].
  - split; reflexivity.
  - split; reflexivity.
  - destruct Hp as [Hx Hy]. split; [rewrite Hx|rewrite Hy]; reflexivity.
Defined.

(** ** Lifetime of an explosion *)

Section ExplosionLife.
Context `{Paper}.

Lemma explosionPass_single (g : Game) (e : Item) :
  explosions g = [e] ->
  explosions (explosionPass g)
  = if gtb (boundsWidth e * 1.3) 100 then [] else [scale e 1.3].
Proof.
  intros He. unfold explosionPass. rewrite He. simpl. rewrite He. simpl.
  unfold explosionBody. rewrite He. simpl.
  destruct (gtb (boundsWidth e * 1.3) 100); reflexivity.
Qed.

Lemma explosionPass_grows (g : Game) (e : Item) :
  explosions g = [e] -> gtb (boundsWidth e * 1.3) 100 = false ->
  explosions (explosionPass g) = [scale e 1.3].
Proof. intros He Hw. rewrite (explosionPass_single g e He), Hw. reflexivity. Qed.

(** X6. An explosion as [removeMine] places it, alone in its group, is still
    there after 14 explosion scans, 1.3 times wider after each, and is
    removed by the 15th. *)
Theorem explosion_lasts_15_scans (g : Game) (p : Point) :
  explosions g = [place explosionSymbol p] ->
  explosions (Nat.iter 14 explosionPass g)
  = [Nat.iter 14 (fun e => scale e 1.3) (place explosionSymbol p)]
  /\ explosions (Nat.iter 15 explosionPass g) = [].
Proof.
  intros He.
  assert (H14 : explosions (Nat.iter 14 explosionPass g)
                = [Nat.iter 14 (fun e => scale e 1.3) (place explosionSymbol p)]).
  { unfold Nat.iter. cbn [nat_rect].
    repeat (match goal with
            | |- explosions (explosionPass ?g') = _ =>
                apply (explosionPass_grows g'); [|reflexivity]
            end).
    exact He. }
  split; [exact H14|].
  change (Nat.iter 15 explosionPass g) with (explosionPass (Nat.iter 14 explosionPass g)).
  rewrite (explosionPass_single _ _ H14). reflexivity.
Qed.

End ExplosionLife.

Lemma explosion_lasts_15_scans_witness :
  length (explosions (Nat.iter 14 explosionPass (removeMine 0 Example.oneMine))) = 1%nat
  /\ explosions (Nat.iter 15 explosionPass (removeMine 0 Example.oneMine)) = [].
Proof.
  destruct (explosion_lasts_15_scans (removeMine 0 Example.oneMine) (mkPoint 100 100))
    as [H14 H15]; [reflexivity|].
  split; [rewrite H14; reflexivity|exact H15].
Defined.
